(** * core-js-101, 05-objects-tasks.js: Rectangle, fromJSON and the CSS selector builder

    A shallow embedding of the JavaScript source.  Objects live in a heap
    (a list indexed by allocation order), a reference is an index, a missing
    property is [None] (JavaScript's [undefined]), numbers are IEEE doubles
    (Rocq's primitive floats) and a call that throws returns [Throw]. *)

From Stdlib Require Import Floats.PrimFloat ZArith Ascii.
From stdpp Require Import base option list strings pretty gmap.

(** ** Shared JavaScript notions *)

(** The double quote, as a one-character string. *)
Definition dquote : string := String "034"%char EmptyString.

(** A reference to an object: its index in the heap. *)
Abbreviation loc := nat (only parsing).

(** A thrown value: [new Error(message)], or one of the errors the
    language itself throws. *)
Inductive exn :=
  | Error (message : string)
  | TypeError (message : string)
  | SyntaxError (message : string).

(** The completion of a call: it returns a value or throws. *)
Inductive completion (A : Type) :=
  | Normal (a : A)
  | Throw (e : exn).
Arguments Normal {A} a.
Arguments Throw {A} e.

(** [ToNumber] on a property holding a number or missing: [undefined] is NaN. *)
Definition ToNumber (v : option float) : float := default nan v.

(** [ToString] of a property holding a string or missing, as a template
    literal does it. *)
Definition ToString (v : option string) : string := default "undefined" v.

(** ** Rectangle *)

Module Rect.

(** The arrow function [() => this.width * this.height]: it keeps the
    [this] of the constructor call that made it. *)
Inductive closure := GetArea (this : loc).

(** The own properties of a rectangle; [Rectangle.prototype] holds none of
    them, so a lookup ends at the object. *)
Record object := mkObject {
  own_width : option float;
  own_height : option float;
  own_getArea : option closure
}.

Abbreviation heap := (list object) (only parsing).

Definition set_width (v : float) (o : object) : object :=
  {| own_width := Some v; own_height := own_height o;
     own_getArea := own_getArea o |}.
Definition set_height (v : float) (o : object) : object :=
  {| own_width := own_width o; own_height := Some v;
     own_getArea := own_getArea o |}.
Definition set_getArea (v : closure) (o : object) : object :=
  {| own_width := own_width o; own_height := own_height o;
     own_getArea := Some v |}.

(** [new Rectangle(width, height)]: [new] makes the object, the body
    assigns its three properties, and the object is the result. *)
Definition Rectangle (width height : float) (h : heap) : heap * loc :=
  let this := length h in
  let h := h ++ [mkObject None None None] in
  let h := alter (set_width width) this h in
  let h := alter (set_height height) this h in
  let h := alter (set_getArea (GetArea this)) this h in
  (h, this).

(** [r.width] and [r.height] *)
Definition width (h : heap) (r : loc) : option float := h !! r ≫= own_width.
Definition height (h : heap) (r : loc) : option float := h !! r ≫= own_height.

(** [r.getArea()] *)
Definition getArea (h : heap) (r : loc) : completion float :=
  match h !! r ≫= own_getArea with
  | Some (GetArea this) =>
      Normal (ToNumber (width h this) * ToNumber (height h this))%float
  | None => Throw (TypeError "r.getArea is not a function")
  end.

End Rect.

(** ** fromJSON *)

Module Json.

(** The value [JSON.parse] returns. *)
#[warnings="-register-all"]
Inductive json :=
  | JNull
  | JBool (b : bool)
  | JNumber (n : float)
  | JString (s : string)
  | JArray (items : list json)
  | JObject (fields : gmap string json).

(** A property holds data or a function (a method, known by its name). *)
Inductive value :=
  | Data (j : json)
  | Function (name : string).

Record object := mkObject {
  own : gmap string value;
  prototype : option loc   (* None: null, or Object.prototype *)
}.

Abbreviation heap := (list object) (only parsing).

(** Property lookup [o.key]: own property first, then up the prototype
    chain. *)
Fixpoint lookup_chain (h : heap) (fuel : nat) (l : loc) (key : string)
    : option value :=
  match fuel with
  | O => None
  | S fuel' =>
      match h !! l with
      | None => None
      | Some o =>
          match own o !! key with
          | Some v => Some v
          | None =>
              match prototype o with
              | Some l' => lookup_chain h fuel' l' key
              | None => None
              end
          end
      end
  end.

Definition Get (h : heap) (l : loc) (key : string) : option value :=
  lookup_chain h (length h) l key.

(** The own enumerable properties the spread [{ ...v }] copies: the fields
    of an object, the items of an array and the characters of a string
    under their indices, nothing for the other values. *)
Definition indexed (items : list json) : gmap string value :=
  list_to_map (imap (fun i x => (pretty i, Data x)) items).

Definition characters (s : string) : list json :=
  (fun c => JString (String c EmptyString)) <$> String.list_ascii_of_string s.

Definition spread (v : json) : gmap string value :=
  match v with
  | JObject fields => Data <$> fields
  | JArray items => indexed items
  | JString s => indexed (characters s)
  | JNull | JBool _ | JNumber _ => ∅
  end.

Definition set_prototype (p : option loc) (o : object) : object :=
  {| own := own o; prototype := p |}.

Section fromJSON.

(** [JSON.parse] is the host's: the text parses to a value or the parser
    throws.  [proto] is an object or [null], as [Object.setPrototypeOf]
    wants it. *)
Variable JSON_parse : string -> exn + json.

Definition fromJSON (proto : option loc) (json : string) (h : heap)
    : heap * completion loc :=
  match JSON_parse json with
  | inl e => (h, Throw e)
  | inr v =>
      let obj := length h in
      let h := h ++ [mkObject (spread v) None] in
      let h := alter (set_prototype proto) obj h in
      (h, Normal obj)
  end.

End fromJSON.

(** A property looked up on the prototype argument: [null] has none. *)
Definition Get_proto (h : heap) (proto : option loc) (key : string)
    : option value :=
  match proto with
  | Some p => Get h p key
  | None => None
  end.

(** Every prototype link of the heap points to an object of the heap. *)
Definition closed (h : heap) : Prop :=
  forall l o p, h !! l = Some o -> prototype o = Some p -> p < length h.

(** Every prototype link points to an object made earlier, as in a heap
    whose objects got their prototype when they were made. *)
Definition ordered (h : heap) : Prop :=
  forall l o p, h !! l = Some o -> prototype o = Some p -> p < l.

(** The example of the source, [fromJSON(Circle.prototype, '{"radius":10}')]:
    a parser that knows this one text, and a [Circle.prototype] holding the
    method [getCircumference]. *)
Definition parse_radius (text : string) : exn + json :=
  if String.eqb text ("{" +:+ dquote +:+ "radius" +:+ dquote +:+ ":10}")
  then inr (JObject {[ "radius" := JNumber 10 ]})
  else inl (SyntaxError "Unexpected token").

Definition Circle_prototype : object :=
  mkObject {[ "getCircumference" := Function "getCircumference" ]} None.

End Json.

(** ** The selector builder *)

Module Builder.

(** The properties an object of the builder family can own; the methods sit
    on [cssSelectorBuilder] itself and are modelled as the functions below. *)
Record object := mkObject {
  own_string : option string;
  own_elementNum : option float;
  own_idNum : option float;
  own_pseodoEl : option float;
  own_order : option float;
  proto : option loc   (* [[Prototype]]; None is Object.prototype *)
}.

Definition heap := list object.

(** The object literal bound to the constant [cssSelectorBuilder]: it owns
    [string], [elementNum], [idNum], [pseodoEl], and no [order]. *)
Definition cssSelectorBuilder_literal : object :=
  {| own_string := Some "";
     own_elementNum := Some 0%float;
     own_idNum := Some 0%float;
     own_pseodoEl := Some 0%float;
     own_order := None;
     proto := None |}.

(** The constant [cssSelectorBuilder] is the first object of the heap. *)
Definition cssSelectorBuilder : loc := 0.

Definition initial_heap : heap := [cssSelectorBuilder_literal].

(** Property assignment [obj.p = v] creates or overwrites the own property. *)
Definition set_string (v : string) (o : object) : object :=
  {| own_string := Some v; own_elementNum := own_elementNum o;
     own_idNum := own_idNum o; own_pseodoEl := own_pseodoEl o;
     own_order := own_order o; proto := proto o |}.
Definition set_elementNum (v : float) (o : object) : object :=
  {| own_string := own_string o; own_elementNum := Some v;
     own_idNum := own_idNum o; own_pseodoEl := own_pseodoEl o;
     own_order := own_order o; proto := proto o |}.
Definition set_idNum (v : float) (o : object) : object :=
  {| own_string := own_string o; own_elementNum := own_elementNum o;
     own_idNum := Some v; own_pseodoEl := own_pseodoEl o;
     own_order := own_order o; proto := proto o |}.
Definition set_pseodoEl (v : float) (o : object) : object :=
  {| own_string := own_string o; own_elementNum := own_elementNum o;
     own_idNum := own_idNum o; own_pseodoEl := Some v;
     own_order := own_order o; proto := proto o |}.
Definition set_order (v : float) (o : object) : object :=
  {| own_string := own_string o; own_elementNum := own_elementNum o;
     own_idNum := own_idNum o; own_pseodoEl := own_pseodoEl o;
     own_order := Some v; proto := proto o |}.

(** Property lookup [o.p]: the own property, else the prototype's, up the
    chain.  A chain of a heap of [n] objects has at most [n] links. *)
Fixpoint lookup_chain {A} (p : object -> option A) (h : heap)
    (fuel : nat) (l : loc) : option A :=
  match fuel with
  | O => None
  | S fuel' =>
      match h !! l with
      | None => None
      | Some o =>
          match p o with
          | Some v => Some v
          | None =>
              match proto o with
              | Some l' => lookup_chain p h fuel' l'
              | None => None
              end
          end
      end
  end.

Definition Get {A} (p : object -> option A) (h : heap) (l : loc) : option A :=
  lookup_chain p h (length h) l.

(** *** The heap-and-exception monad *)

Definition M (A : Type) : Type := heap -> heap * completion A.

#[global] Instance M_ret : MRet M := fun A a h => (h, Normal a).
#[global] Instance M_bind : MBind M := fun A B f m h =>
  match m h with
  | (h', Normal a) => f a h'
  | (h', Throw e) => (h', Throw e)
  end.

Definition throw {A} (e : exn) : M A := fun h => (h, Throw e).

(** [Object.create(p)]: a new object with no own property. *)
Definition Object_create (p : loc) : M loc := fun h =>
  (h ++ [mkObject None None None None None (Some p)], Normal (length h)).

Definition get {A} (p : object -> option A) (l : loc) : M (option A) :=
  fun h => (h, Normal (Get p h l)).

Definition put (upd : object -> object) (l : loc) : M unit :=
  fun h => (alter upd l h, Normal tt).

(** *** The methods of cssSelectorBuilder *)

Definition DuplicatePart : exn :=
  Error "Element, id and pseudo-element should not occur more then one time inside the selector".

Definition OrderViolation : exn :=
  Error "Selector parts should be arranged in the following order: element, id, class, attribute, pseudo-class, pseudo-element".

(** [this.order > num] is the comparison [num < this.order] on numbers. *)
Definition checkOrder (this : loc) (num : float) : M unit :=
  order ← get own_order this;
  if PrimFloat.ltb num (ToNumber order) then throw OrderViolation else mret tt.

Definition element (this : loc) (value : string) : M loc :=
  obj ← Object_create cssSelectorBuilder;
  n ← get own_elementNum this;
  put (set_elementNum (ToNumber n + 1)%float) obj;;
  checkOrder this 1;;
  n' ← get own_elementNum obj;
  if PrimFloat.ltb 1 (ToNumber n') then throw DuplicatePart else
  put (set_order 1) obj;;
  s ← get own_string this;
  put (set_string (ToString s +:+ value)) obj;;
  mret obj.

Definition id (this : loc) (value : string) : M loc :=
  obj ← Object_create cssSelectorBuilder;
  n ← get own_idNum this;
  put (set_idNum (ToNumber n + 1)%float) obj;;
  checkOrder this 2;;
  put (set_order 2) obj;;
  n' ← get own_idNum obj;
  if PrimFloat.ltb 1 (ToNumber n') then throw DuplicatePart else
  s ← get own_string this;
  put (set_string (ToString s +:+ "#" +:+ value)) obj;;
  mret obj.

Definition class (this : loc) (value : string) : M loc :=
  obj ← Object_create cssSelectorBuilder;
  checkOrder this 3;;
  put (set_order 3) obj;;
  s ← get own_string this;
  put (set_string (ToString s +:+ "." +:+ value)) obj;;
  mret obj.

Definition attr (this : loc) (value : string) : M loc :=
  obj ← Object_create cssSelectorBuilder;
  checkOrder this 4;;
  put (set_order 4) obj;;
  s ← get own_string this;
  put (set_string (ToString s +:+ "[" +:+ value +:+ "]")) obj;;
  mret obj.

Definition pseudoClass (this : loc) (value : string) : M loc :=
  obj ← Object_create cssSelectorBuilder;
  checkOrder this 5;;
  put (set_order 5) obj;;
  s ← get own_string this;
  put (set_string (ToString s +:+ ":" +:+ value)) obj;;
  mret obj.

Definition pseudoElement (this : loc) (value : string) : M loc :=
  obj ← Object_create cssSelectorBuilder;
  n ← get own_pseodoEl this;
  put (set_pseodoEl (ToNumber n + 1)%float) obj;;
  checkOrder this 6;;
  put (set_order 6) obj;;
  n' ← get own_pseodoEl obj;
  if PrimFloat.ltb 1 (ToNumber n') then throw DuplicatePart else
  s ← get own_string this;
  put (set_string (ToString s +:+ "::" +:+ value)) obj;;
  mret obj.

(** [combine] does not use its receiver. *)
Definition combine (selector1 : loc) (combinator : string) (selector2 : loc)
    : M loc :=
  obj ← Object_create cssSelectorBuilder;
  s1 ← get own_string selector1;
  s2 ← get own_string selector2;
  put (set_string
         (ToString s1 +:+ " " +:+ combinator +:+ " " +:+ ToString s2)) obj;;
  mret obj.

(** [stringify()] returns [this.string]; it reads the heap and changes
    nothing. *)
Definition stringify (h : heap) (this : loc) : option string :=
  Get own_string h this.

(** *** Lineages: chains of part calls *)

Inductive part := Element | Id | Class | Attr | PseudoClass | PseudoElement.

(** The rank each method passes to [checkOrder] and stores in [order]. *)
Definition rank (k : part) : float :=
  match k with
  | Element => 1 | Id => 2 | Class => 3
  | Attr => 4 | PseudoClass => 5 | PseudoElement => 6
  end%float.

(** [this.k(value)] *)
Definition call (k : part) (this : loc) (value : string) : M loc :=
  match k with
  | Element => element this value
  | Id => id this value
  | Class => class this value
  | Attr => attr this value
  | PseudoClass => pseudoClass this value
  | PseudoElement => pseudoElement this value
  end.

(** [this.k1(v1).k2(v2)...]: each call is made on the result of the one
    before; the first that throws ends the chain. *)
Fixpoint chain (cs : list (part * string)) (this : loc) : M loc :=
  match cs with
  | [] => mret this
  | (k, v) :: cs' => obj ← call k this v; chain cs' obj
  end.

(** *** What a call does, read off the receiver

    The definitions below restate the methods as functions of the
    receiver's object; [call_spec] and [chain_spec] prove that the methods
    above compute exactly this. *)

(** In a heap where every object but [cssSelectorBuilder] was made by
    [Object.create(cssSelectorBuilder)], a property lookup sees the own
    property or else the one of the literal. *)
Definition builder_heap (h : heap) : Prop :=
  exists rest, h = cssSelectorBuilder_literal :: rest /\
    Forall (fun o => proto o = Some cssSelectorBuilder) rest.

Definition resolve {A} (p : object -> option A) (o : object) : option A :=
  match p o with
  | Some v => Some v
  | None => p cssSelectorBuilder_literal
  end.

(** The counter a singleton kind keeps; the other kinds keep none. *)
Definition counter (k : part) : option (object -> option float) :=
  match k with
  | Element => Some own_elementNum
  | Id => Some own_idNum
  | PseudoElement => Some own_pseodoEl
  | Class | Attr | PseudoClass => None
  end.

Definition singleton (k : part) : bool :=
  match counter k with Some _ => true | None => false end.

(** The text a part adds. *)
Definition render (k : part) (v : string) : string :=
  match k with
  | Element => v
  | Id => "#" +:+ v
  | Class => "." +:+ v
  | Attr => "[" +:+ v +:+ "]"
  | PseudoClass => ":" +:+ v
  | PseudoElement => "::" +:+ v
  end.

(** The two tests of a call on a receiver whose object is [o]. *)
Definition order_fails (k : part) (o : object) : bool :=
  PrimFloat.ltb (rank k) (ToNumber (resolve own_order o)).

Definition duplicate (k : part) (o : object) : bool :=
  match counter k with
  | Some p => PrimFloat.ltb 1 (ToNumber (resolve p o) + 1)
  | None => false
  end.

Definition outcome (k : part) (o : object) : option exn :=
  if order_fails k o then Some OrderViolation
  else if duplicate k o then Some DuplicatePart
  else None.

Definition bump (p : object -> option float) (o : object) : option float :=
  Some (ToNumber (resolve p o) + 1)%float.

(** The object a successful call returns. *)
Definition made (k : part) (o : object) (v : string) : object :=
  {| own_string := Some (ToString (resolve own_string o) +:+ render k v);
     own_elementNum :=
       match k with Element => bump own_elementNum o | _ => None end;
     own_idNum := match k with Id => bump own_idNum o | _ => None end;
     own_pseodoEl :=
       match k with PseudoElement => bump own_pseodoEl o | _ => None end;
     own_order := Some (rank k);
     proto := Some cssSelectorBuilder |}.

(** A chain read off the receiver's object: the error of the first call
    that throws, or the object the last call returns. *)
Fixpoint run (cs : list (part * string)) (o : object) : exn + object :=
  match cs with
  | [] => inr o
  | (k, v) :: cs' =>
      match outcome k o with
      | Some e => inl e
      | None => run cs' (made k o v)
      end
  end.

#[global] Instance part_eq_dec : EqDecision part.
Proof. solve_decision. Defined.

(** The kinds of a chain, and the text its parts add up to. *)
Definition kinds (cs : list (part * string)) : list part := map fst cs.

Fixpoint text_of (cs : list (part * string)) : string :=
  match cs with
  | [] => ""
  | (k, v) :: cs' => render k v +:+ text_of cs'
  end.

(** Ranks never go down from one call to the next. *)
Fixpoint nondecreasing (ks : list part) : bool :=
  match ks with
  | k1 :: ks' =>
      match ks' with
      | k2 :: _ => PrimFloat.leb (rank k1) (rank k2) && nondecreasing ks'
      | [] => true
      end
  | [] => true
  end.

(** What a caller can see of a completion: the error, or the text of the
    returned selector. *)
Definition observe (hr : heap * completion loc) : exn + option string :=
  match hr.2 with
  | Normal l => inr (stringify hr.1 l)
  | Throw e => inl e
  end.

(** The receiver of a first call: no rank yet, nothing counted. *)
Definition fresh (o : object) : Prop :=
  resolve own_order o = None /\
  resolve own_elementNum o = Some 0%float /\
  resolve own_idNum o = Some 0%float /\
  resolve own_pseodoEl o = Some 0%float.

Definition count_after (k k' : part) : float :=
  if decide (k = k') then 1%float else 0%float.

(** The object a successful call of kind [k] returns, as later calls see
    it: rank of [k], and a count of one for [k] alone. *)
Record after (k : part) (o : object) : Prop := {
  after_order : resolve own_order o = Some (rank k);
  after_elementNum : resolve own_elementNum o = Some (count_after k Element);
  after_idNum : resolve own_idNum o = Some (count_after k Id);
  after_pseodoEl : resolve own_pseodoEl o = Some (count_after k PseudoElement)
}.

(** The position of a kind in the required order, as a natural number. *)
Definition rank_nat (k : part) : nat :=
  match k with
  | Element => 1 | Id => 2 | Class => 3
  | Attr => 4 | PseudoClass => 5 | PseudoElement => 6
  end.

(** Each singleton kind at most once. *)
Definition at_most_once (ks : list part) : Prop :=
  forall k, singleton k = true -> count_occ part_eq_dec ks k <= 1.

(** The error, if any, of a call of kind [k] made on the result of a call
    of kind [k0]: a lower rank, else the same singleton kind again. *)
Definition step_error (k0 k : part) : option exn :=
  if PrimFloat.ltb (rank k) (rank k0) then Some OrderViolation
  else if singleton k && bool_decide (k = k0) then Some DuplicatePart
  else None.

(** The first error along the kinds of a chain, read off neighbours. *)
Fixpoint first_error (k0 : part) (ks : list part) : option exn :=
  match ks with
  | [] => None
  | k :: ks' =>
      match step_error k0 k with
      | Some e => Some e
      | None => first_error k ks'
      end
  end.

Definition chain_error (ks : list part) : option exn :=
  match ks with
  | [] => None
  | k :: ks' => first_error k ks'
  end.

(** Two receivers that the tests of a call cannot tell apart. *)
Definition same_checks (o1 o2 : object) : Prop :=
  resolve own_order o1 = resolve own_order o2 /\
  resolve own_elementNum o1 = resolve own_elementNum o2 /\
  resolve own_idNum o1 = resolve own_idNum o2 /\
  resolve own_pseodoEl o1 = resolve own_pseodoEl o2.

End Builder.

(** * Properties of the selector builder *)

Import Builder.

Lemma builder_heap_initial : builder_heap initial_heap.
Proof. exists []. split; [reflexivity | constructor]. Qed.

Lemma builder_heap_snoc h o :
  builder_heap h -> proto o = Some cssSelectorBuilder -> builder_heap (h ++ [o]).
Proof.
  intros (rest & -> & Hrest) Ho. exists (rest ++ [o]). split; [reflexivity |].
  apply Forall_app. split; [assumption | by constructor].
Qed.

Lemma builder_heap_lookup h l o :
  builder_heap h -> h !! l = Some o ->
  (l = cssSelectorBuilder /\ o = cssSelectorBuilder_literal) \/
  (l <> cssSelectorBuilder /\ proto o = Some cssSelectorBuilder).
Proof.
  intros (rest & -> & Hrest) Hl. destruct l as [|l]; simpl in Hl.
  - left. split; [reflexivity | congruence].
  - right. split; [discriminate |].
    rewrite Forall_lookup in Hrest. by eapply Hrest.
Qed.

(** A lookup in a builder heap stops at the object or at the literal. *)
Lemma Get_resolve {A} (p : object -> option A) h l o :
  builder_heap h -> h !! l = Some o -> Get p h l = resolve p o.
Proof.
  intros Hh Hl. unfold Get, resolve.
  destruct (builder_heap_lookup h l o Hh Hl) as [[-> ->] | [Hne Hp]].
  - destruct Hh as (rest & -> & _). simpl.
    by destruct (p cssSelectorBuilder_literal).
  - pose proof (lookup_lt_Some _ _ _ Hl) as Hlt.
    destruct Hh as (rest & -> & _).
    destruct l as [|l]; [done |].
    destruct rest as [|o1 rest]; [simpl in Hlt; lia |].
    change (length (cssSelectorBuilder_literal :: o1 :: rest))
      with (S (S (length rest))).
    cbn [lookup_chain]. rewrite Hl.
    destruct (p o) as [v|]; [reflexivity |]. rewrite Hp.
    simpl. by destruct (p cssSelectorBuilder_literal).
Qed.

Lemma Get_old {A} (p : object -> option A) h l o x :
  builder_heap h -> h !! l = Some o -> proto x = Some cssSelectorBuilder ->
  Get p (h ++ [x]) l = resolve p o.
Proof.
  intros Hh Hl Hx. apply Get_resolve.
  - by apply builder_heap_snoc.
  - by apply lookup_app_l_Some.
Qed.

Lemma Get_new {A} (p : object -> option A) h x :
  builder_heap h -> proto x = Some cssSelectorBuilder ->
  Get p (h ++ [x]) (length h) = resolve p x.
Proof.
  intros Hh Hx. apply Get_resolve.
  - by apply builder_heap_snoc.
  - by apply list_lookup_middle.
Qed.

Lemma alter_new (g : object -> object) (h : heap) x :
  alter g (length h) (h ++ [x]) = h ++ [g x].
Proof.
  replace (length h) with (length h + 0) at 1 by lia.
  by rewrite (alter_app_r g h [x] 0).
Qed.

(** *** One call *)

Ltac run_step :=
  first
    [ rewrite alter_new
    | erewrite Get_new by (eassumption || reflexivity)
    | erewrite Get_old by (eassumption || reflexivity)
    | match goal with
      | H : ?c = _ |- context [if ?c then _ else _] => rewrite H
      end ];
  cbn [resolve own_string own_elementNum own_idNum own_pseodoEl own_order proto
       set_string set_elementNum set_idNum set_pseodoEl set_order ToNumber
       default from_option Datatypes.id fst snd].

Ltac unfold_methods :=
  unfold element, id, class, attr, pseudoClass, pseudoElement, combine,
    checkOrder, mbind, mret, M_bind, M_ret, Object_create, get, put, throw.

(** Every call adds exactly one object to the heap, a child of
    [cssSelectorBuilder]; it throws as [outcome] says, and otherwise
    returns the new object, which is [made]. *)
Lemma call_spec h this o k v :
  builder_heap h -> h !! this = Some o ->
  exists o',
    (call k this v h).1 = h ++ [o'] /\
    (call k this v h).2 =
      match outcome k o with Some e => Throw e | None => Normal (length h) end /\
    proto o' = Some cssSelectorBuilder /\
    (outcome k o = None -> o' = made k o v).
Proof.
  intros Hh Hthis. unfold outcome, order_fails, duplicate, made, bump.
  destruct k; cbn [call counter rank render]; unfold_methods;
  (destruct (PrimFloat.ltb _ (ToNumber (resolve own_order o))) eqn:Horder;
   [| try destruct (PrimFloat.ltb 1 (ToNumber _ + 1)) eqn:Hdup ]);
  eexists; repeat run_step;
  (split; [reflexivity |]); (split; [reflexivity |]);
  (split; [reflexivity |]); try discriminate; intros _; reflexivity.
Qed.

Lemma builder_heap_call h this k v :
  builder_heap h -> is_Some (h !! this) -> builder_heap (call k this v h).1.
Proof.
  intros Hh [o Ho].
  destruct (call_spec h this o k v Hh Ho) as (o' & -> & _ & Hp & _).
  by apply builder_heap_snoc.
Qed.

(** *** Chains *)

Lemma chain_spec cs : forall h this o,
  builder_heap h -> h !! this = Some o ->
  exists ext,
    (chain cs this h).1 = h ++ ext /\
    builder_heap (h ++ ext) /\
    match run cs o with
    | inl e => (chain cs this h).2 = Throw e
    | inr o' =>
        exists l, (chain cs this h).2 = Normal l /\ (h ++ ext) !! l = Some o'
    end.
Proof.
  induction cs as [|[k v] cs IH]; intros h this o Hh Hthis.
  - exists []. rewrite app_nil_r. simpl. eauto.
  - destruct (call_spec h this o k v Hh Hthis) as (o1 & H1 & H2 & Hp & Hm).
    cbn [chain run]. unfold mbind, M_bind.
    destruct (call k this v h) as [h1 r1]. simpl in H1, H2. subst h1 r1.
    pose proof (builder_heap_snoc h o1 Hh Hp) as Hh1.
    destruct (outcome k o) as [e|].
    + exists [o1]. simpl. eauto.
    + rewrite (Hm eq_refl) in *.
      destruct (IH (h ++ [made k o v]) (length h) (made k o v) Hh1)
        as (ext & E1 & E2 & E3); [by apply list_lookup_middle |].
      exists (made k o v :: ext).
      replace (h ++ made k o v :: ext) with ((h ++ [made k o v]) ++ ext)
        by (by rewrite <- app_assoc).
      eauto.
Qed.

(** *** Strings *)

Lemma append_nil_r (s : string) : s +:+ "" = s.
Proof.
  induction s as [|c s IH]; [reflexivity |].
  change (String c (s +:+ "") = String c s). by rewrite IH.
Qed.

Lemma append_assoc (s1 s2 s3 : string) :
  (s1 +:+ s2) +:+ s3 = s1 +:+ (s2 +:+ s3).
Proof.
  induction s1 as [|c s1 IH]; [reflexivity |].
  change (String c ((s1 +:+ s2) +:+ s3) = String c (s1 +:+ (s2 +:+ s3))).
  by rewrite IH.
Qed.

Lemma resolve_string o :
  resolve own_string o = Some (ToString (resolve own_string o)).
Proof. unfold resolve. by destruct (own_string o). Qed.

(** *** Ranks *)

Lemma rank_ltb k1 k2 :
  PrimFloat.ltb (rank k1) (rank k2) = (rank_nat k1 <? rank_nat k2).
Proof. by destruct k1, k2. Qed.

Lemma rank_leb k1 k2 :
  PrimFloat.leb (rank k1) (rank k2) = (rank_nat k1 <=? rank_nat k2).
Proof. by destruct k1, k2. Qed.

Lemma rank_nat_inj k1 k2 : rank_nat k1 = rank_nat k2 -> k1 = k2.
Proof. by destruct k1, k2. Qed.

Lemma nondecreasing_cons k ks :
  nondecreasing (k :: ks) = true -> nondecreasing ks = true.
Proof.
  destruct ks as [|k2 ks]; [done |]. cbn [nondecreasing].
  by intros [_ ?]%andb_prop.
Qed.

Lemma nondecreasing_last ks : forall k k',
  nondecreasing ks = true -> last ks = Some k' -> k ∈ ks ->
  rank_nat k <= rank_nat k'.
Proof.
  induction ks as [|k1 ks IH]; intros k k' Hs Hl Hk; [inversion Hk |].
  destruct ks as [|k2 ks].
  - apply list_elem_of_singleton in Hk. simpl in Hl. by simplify_eq.
  - rewrite last_cons_cons in Hl.
    pose proof (nondecreasing_cons _ _ Hs) as Hs'.
    apply elem_of_cons in Hk as [-> | Hk]; [| by apply IH].
    cbn [nondecreasing] in Hs. apply andb_prop in Hs as [H12 _].
    rewrite rank_leb in H12. apply Nat.leb_le in H12.
    assert (rank_nat k2 <= rank_nat k') by (apply IH; [done.. | left]).
    lia.
Qed.

(** *** The two tests on a fresh receiver and after a call *)

Lemma fresh_literal : fresh cssSelectorBuilder_literal.
Proof. by repeat split. Qed.

Lemma outcome_fresh k o : fresh o -> outcome k o = None.
Proof.
  intros (Ho & He & Hi & Hp). unfold outcome, order_fails, duplicate.
  rewrite Ho. by destruct k; cbn [counter]; rewrite ?He, ?Hi, ?Hp.
Qed.

Lemma outcome_after k0 k o :
  after k0 o ->
  outcome k o =
    if rank_nat k <? rank_nat k0 then Some OrderViolation
    else if singleton k && bool_decide (k = k0) then Some DuplicatePart
    else None.
Proof.
  intros [Ho He Hi Hp]. unfold outcome, order_fails, duplicate.
  rewrite Ho. cbn [ToNumber default from_option Datatypes.id].
  rewrite rank_ltb. destruct (rank_nat k <? rank_nat k0); [reflexivity |].
  by destruct k; cbn [counter singleton]; rewrite ?He, ?Hi, ?Hp; destruct k0.
Qed.

Lemma made_after k o v :
  fresh o \/ (exists k0, after k0 o) -> outcome k o = None ->
  after k (made k o v).
Proof.
  intros [(Ho & He & Hi & Hp) | [k0 Hk0]] Hout.
  - by destruct k; split; unfold resolve, made, bump; cbn;
      rewrite ?He, ?Hi, ?Hp.
  - rewrite (outcome_after k0 k o Hk0) in Hout.
    destruct Hk0 as [Ho He Hi Hp].
    destruct (rank_nat k <? rank_nat k0); [discriminate |].
    by destruct k; split; unfold resolve, made, bump; cbn;
      rewrite ?He, ?Hi, ?Hp; destruct k0.
Qed.

(** *** Chains read off the receiver *)

Lemma made_string k o v :
  resolve own_string (made k o v) =
  Some (ToString (resolve own_string o) +:+ render k v).
Proof. reflexivity. Qed.

(** A chain that succeeds from the result of a call of kind [k0] ends in
    the result of its last call, its ranks never went down, and its text
    is the receiver's followed by the parts. *)
Lemma run_after cs : forall k0 o o',
  after k0 o -> run cs o = inr o' ->
  exists k',
    last (k0 :: kinds cs) = Some k' /\ after k' o' /\
    nondecreasing (k0 :: kinds cs) = true /\
    resolve own_string o' =
      Some (ToString (resolve own_string o) +:+ text_of cs).
Proof.
  induction cs as [|[k v] cs IH]; intros k0 o o' Hk0 Hrun; simpl in Hrun.
  - inversion Hrun; subst o'. exists k0.
    split; [done | split; [done | split; [done |]]].
    cbn [text_of]. rewrite append_nil_r. apply resolve_string.
  - destruct (outcome k o) eqn:Hout; [discriminate |].
    assert (Hk : after k (made k o v)) by (apply made_after; eauto).
    destruct (IH k _ _ Hk Hrun) as (k' & Hl & Ha & Hs & Ht).
    exists k'. split; [| split; [| split]]; try done.
    + change (nondecreasing (k0 :: k :: kinds cs) = true).
      cbn [nondecreasing]. apply andb_true_intro. split; [| exact Hs].
      rewrite (outcome_after k0 k o Hk0) in Hout.
      rewrite rank_leb. apply Nat.leb_le.
      destruct (rank_nat k <? rank_nat k0) eqn:E; [discriminate |].
      apply Nat.ltb_ge in E. lia.
    + rewrite Ht, made_string. cbn [ToString default from_option Datatypes.id].
      cbn [text_of]. by rewrite append_assoc.
Qed.

Lemma run_fresh k v cs o o' :
  fresh o -> run ((k, v) :: cs) o = inr o' ->
  exists k',
    last (kinds ((k, v) :: cs)) = Some k' /\ after k' o' /\
    nondecreasing (kinds ((k, v) :: cs)) = true /\
    resolve own_string o' =
      Some (ToString (resolve own_string o) +:+ text_of ((k, v) :: cs)).
Proof.
  intros Ho Hrun. simpl in Hrun. rewrite (outcome_fresh k o Ho) in Hrun.
  assert (Hk : after k (made k o v))
    by (apply made_after; [by left | by apply outcome_fresh]).
  destruct (run_after cs k _ _ Hk Hrun) as (k' & Hl & Ha & Hs & Ht).
  exists k'. split; [done | split; [done | split; [done |]]].
  rewrite Ht, made_string. cbn [ToString default from_option Datatypes.id].
  cbn [text_of]. by rewrite append_assoc.
Qed.

Lemma at_most_once_cons k ks :
  at_most_once (k :: ks) ->
  at_most_once ks /\ (singleton k = true -> k ∉ ks).
Proof.
  intros H. split.
  - intros k' Hk'. specialize (H k' Hk'). simpl in H.
    destruct (part_eq_dec k k'); lia.
  - intros Hk Hin. specialize (H k Hk). rewrite count_occ_cons_eq in H by done.
    apply list_elem_of_In in Hin.
    apply (count_occ_In part_eq_dec) in Hin. lia.
Qed.

(** A chain whose ranks never go down and that repeats no singleton kind
    runs to its end. *)
Lemma run_sorted cs : forall k0 o,
  after k0 o -> nondecreasing (k0 :: kinds cs) = true ->
  (singleton k0 = true -> k0 ∉ kinds cs) -> at_most_once (kinds cs) ->
  exists o', run cs o = inr o'.
Proof.
  induction cs as [|[k v] cs IH]; intros k0 o Hk0 Hs Hk0cs Honce.
  - by exists o.
  - change (kinds ((k, v) :: cs)) with (k :: kinds cs) in *.
    cbn [nondecreasing] in Hs. apply andb_prop in Hs as [H0 Hs].
    rewrite rank_leb in H0. apply Nat.leb_le in H0.
    apply at_most_once_cons in Honce as [Honce Hk].
    assert (Hout : outcome k o = None).
    { rewrite (outcome_after k0 k o Hk0).
      destruct (rank_nat k <? rank_nat k0) eqn:E;
        [apply Nat.ltb_lt in E; lia |].
      destruct (singleton k) eqn:Hsk; [| done].
      rewrite bool_decide_eq_false_2; [done |].
      intros ->. apply Hk0cs; [done | left]. }
    simpl. rewrite Hout. apply (IH k); try done.
    apply made_after; eauto.
Qed.

(** *** From the heap to the receiver's object and back *)

Lemma builder_heap_base h :
  builder_heap h -> h !! cssSelectorBuilder = Some cssSelectorBuilder_literal.
Proof. by intros (rest & -> & _). Qed.

Lemma call_completion h this o k v :
  builder_heap h -> h !! this = Some o ->
  (call k this v h).2 =
    match outcome k o with Some e => Throw e | None => Normal (length h) end.
Proof.
  intros Hh Ho. by destruct (call_spec h this o k v Hh Ho) as (? & _ & ? & _).
Qed.

Lemma chain_normal h cs this o h' l :
  builder_heap h -> h !! this = Some o ->
  chain cs this h = (h', Normal l) ->
  exists o' ext,
    h' = h ++ ext /\ builder_heap h' /\ run cs o = inr o' /\
    h' !! l = Some o'.
Proof.
  intros Hh Ho Hc.
  destruct (chain_spec cs h this o Hh Ho) as (ext & E1 & E2 & E3).
  rewrite Hc in E1, E3. simpl in E1, E3. subst h'.
  destruct (run cs o) as [e | o']; [discriminate |].
  destruct E3 as (l' & [= <-] & Hl). by exists o', ext.
Qed.

Lemma checkOrder_completion h this o num :
  builder_heap h -> h !! this = Some o ->
  (checkOrder this num h).2 =
    if PrimFloat.ltb num (ToNumber (resolve own_order o))
    then Throw OrderViolation else Normal tt.
Proof.
  intros Hh Ho. unfold_methods.
  rewrite (Get_resolve own_order h this o Hh Ho).
  by destruct (PrimFloat.ltb _ _).
Qed.

Lemma kinds_snoc cs k v : kinds (cs ++ [(k, v)]) = kinds cs ++ [k].
Proof. unfold kinds. by rewrite map_app. Qed.

(** The state a successful non-empty chain from [cssSelectorBuilder]
    ends in. *)
Lemma lineage_end h cs h' l :
  builder_heap h -> cs <> [] ->
  chain cs cssSelectorBuilder h = (h', Normal l) ->
  exists o' k',
    builder_heap h' /\ h' !! l = Some o' /\
    last (kinds cs) = Some k' /\ after k' o' /\
    nondecreasing (kinds cs) = true /\
    resolve own_string o' = Some (text_of cs).
Proof.
  intros Hh Hne Hc.
  destruct (chain_normal h cs _ _ h' l Hh (builder_heap_base h Hh) Hc)
    as (o' & ext & -> & Hh' & Hrun & Hl).
  destruct cs as [|[k v] cs]; [done |].
  destruct (run_fresh k v cs _ o' fresh_literal Hrun)
    as (k' & Hlast & Ha & Hs & Ht).
  by exists o', k'.
Qed.

(** *** C1: a singleton kind called a second time *)

(** C1, as the specification words it, fails: after
    [element('div').id('main')] a second [element] call throws the order
    error, not the duplicate error, because [checkOrder] runs before the
    counter is tested. *)
Lemma interleaved_element_not_duplicate :
  exists h' l,
    chain [(Element, "div"); (Id, "main")] cssSelectorBuilder initial_heap
      = (h', Normal l) /\
    Element ∈ kinds [(Element, "div"); (Id, "main")] /\
    (call Element l "span" h').2 = Throw OrderViolation /\
    (call Element l "span" h').2 <> Throw DuplicatePart.
Proof.
  eexists _, _. split; [reflexivity |]. split; [by left |].
  split; [reflexivity | discriminate].
Qed.

(** C1, amended: in a lineage from [cssSelectorBuilder] that already holds
    a call of a singleton kind (element, id or pseudoElement), calling that
    kind again always throws: the duplicate error when the last part added
    is of that same kind, the order error when any other part was added in
    between. *)
Theorem second_singleton_call_throws h cs k v h' l :
  builder_heap h -> singleton k = true -> k ∈ kinds cs ->
  chain cs cssSelectorBuilder h = (h', Normal l) ->
  exists k',
    last (kinds cs) = Some k' /\
    (call k l v h').2 =
      Throw (if bool_decide (k' = k) then DuplicatePart else OrderViolation).
Proof.
  intros Hh Hk Hin Hc.
  assert (Hne : cs <> []) by (intros ->; inversion Hin).
  destruct (lineage_end h cs h' l Hh Hne Hc)
    as (o' & k' & Hh' & Hl & Hlast & Ha & Hs & _).
  exists k'. split; [done |].
  rewrite (call_completion h' l o' k v Hh' Hl), (outcome_after k' k o' Ha).
  pose proof (nondecreasing_last _ k k' Hs Hlast Hin) as Hle.
  destruct (rank_nat k <? rank_nat k') eqn:E.
  - rewrite bool_decide_eq_false_2; [done |].
    intros ->. apply Nat.ltb_lt in E. lia.
  - apply Nat.ltb_ge in E.
    assert (k = k') as -> by (apply rank_nat_inj; lia).
    by rewrite Hk, !bool_decide_eq_true_2.
Qed.

Lemma second_singleton_call_throws_witness :
  exists k',
    last (kinds [(Element, "div"); (Class, "box")]) = Some k' /\
    (call Element 2 "span"
       (chain [(Element, "div"); (Class, "box")]
          cssSelectorBuilder initial_heap).1).2 =
      Throw (if bool_decide (k' = Element)
             then DuplicatePart else OrderViolation).
Proof.
  apply (second_singleton_call_throws initial_heap
           [(Element, "div"); (Class, "box")] Element "span").
  - apply builder_heap_initial.
  - reflexivity.
  - by left.
  - reflexivity.
Defined.

(** *** C4: the same singleton kind twice in a row *)

(** C4: when the last part added is of a singleton kind, calling that kind
    again passes the order check (equal rank) and throws the duplicate
    error. *)
Theorem singleton_twice_in_a_row h cs k v v' h' l :
  builder_heap h -> singleton k = true ->
  chain (cs ++ [(k, v)]) cssSelectorBuilder h = (h', Normal l) ->
  (checkOrder l (rank k) h').2 = Normal tt /\
  (call k l v' h').2 = Throw DuplicatePart.
Proof.
  intros Hh Hk Hc.
  assert (Hne : cs ++ [(k, v)] <> []) by (by destruct cs).
  destruct (lineage_end h _ h' l Hh Hne Hc)
    as (o' & k' & Hh' & Hl & Hlast & Ha & _).
  rewrite kinds_snoc, last_snoc in Hlast.
  injection Hlast as <-.
  rewrite (checkOrder_completion h' l o' _ Hh' Hl), (after_order _ _ Ha).
  rewrite (call_completion h' l o' k v' Hh' Hl), (outcome_after k k o' Ha).
  cbn [ToNumber default from_option Datatypes.id].
  rewrite rank_ltb, Nat.ltb_irrefl, Hk, bool_decide_eq_true_2 by done.
  done.
Qed.

Lemma singleton_twice_in_a_row_witness :
  (checkOrder 2 (rank PseudoElement)
     (chain ([(Class, "a")] ++ [(PseudoElement, "after")])
        cssSelectorBuilder initial_heap).1).2 = Normal tt /\
  (call PseudoElement 2 "before"
     (chain ([(Class, "a")] ++ [(PseudoElement, "after")])
        cssSelectorBuilder initial_heap).1).2 = Throw DuplicatePart.
Proof.
  apply (singleton_twice_in_a_row initial_heap [(Class, "a")]
           PseudoElement "after" "before").
  - apply builder_heap_initial.
  - reflexivity.
  - reflexivity.
Defined.

(** *** C2: the order of the parts *)

Lemma chain_snoc cs k v this h :
  chain (cs ++ [(k, v)]) this h =
  match chain cs this h with
  | (h0, Normal l0) => call k l0 v h0
  | (h0, Throw e) => (h0, Throw e)
  end.
Proof.
  revert this h. induction cs as [|[k1 v1] cs IH]; intros this h.
  - cbn [app chain]. unfold mbind, mret, M_bind, M_ret.
    by destruct (call k this v h) as [h1 [l1 | e]].
  - cbn [app chain]. unfold mbind, M_bind.
    destruct (call k1 this v1 h) as [h1 [l1 | e]]; [apply IH | done].
Qed.

Lemma rank_eq_not_less k k0 :
  rank k = rank k0 -> (rank_nat k <? rank_nat k0) = false.
Proof. intros H. rewrite <- rank_ltb, H. by destruct k0. Qed.

(** C2: a chain from [cssSelectorBuilder] whose ranks never go down and
    that calls each of element, id and pseudoElement at most once succeeds
    at every call, and [stringify()] of its result is the text of its
    parts; on the result of any successful chain, a call of a rank below
    that of the last part added throws the order error, while a call of
    the same rank passes the order check; the message of the order error
    names the required order. *)
Theorem order_property h cs :
  builder_heap h ->
  (nondecreasing (kinds cs) = true -> at_most_once (kinds cs) ->
   exists h' l,
     chain cs cssSelectorBuilder h = (h', Normal l) /\
     stringify h' l = Some (text_of cs)) /\
  (forall k0 v0 h' l k v,
     chain (cs ++ [(k0, v0)]) cssSelectorBuilder h = (h', Normal l) ->
     (PrimFloat.ltb (rank k) (rank k0) = true ->
      (call k l v h').2 = Throw OrderViolation) /\
     (rank k = rank k0 ->
      (checkOrder l (rank k) h').2 = Normal tt /\
      (call k l v h').2 <> Throw OrderViolation)) /\
  (exists prefix,
     OrderViolation =
     Error (prefix +:+
            "element, id, class, attribute, pseudo-class, pseudo-element")).
Proof.
  intros Hh. pose proof (builder_heap_base h Hh) as Hbase.
  split; [| split].
  - intros Hs Honce.
    assert (exists o', run cs cssSelectorBuilder_literal = inr o' /\
              resolve own_string o' = Some (text_of cs)) as (o' & Hrun & Ht).
    { destruct cs as [|[k v] cs]; [by exists cssSelectorBuilder_literal |].
      change (kinds ((k, v) :: cs)) with (k :: kinds cs) in *.
      apply at_most_once_cons in Honce as [Honce Hk].
      pose proof (outcome_fresh k _ fresh_literal) as Hout.
      destruct (run_sorted cs k (made k cssSelectorBuilder_literal v))
        as [o' Hrun]; try done.
      { apply made_after; [left; apply fresh_literal | done]. }
      assert (Hrun' : run ((k, v) :: cs) cssSelectorBuilder_literal = inr o')
        by (simpl; by rewrite Hout).
      exists o'. split; [done |].
      by destruct (run_fresh k v cs _ o' fresh_literal Hrun')
        as (? & _ & _ & _ & ->). }
    destruct (chain_spec cs h _ _ Hh Hbase) as (ext & E1 & E2 & E3).
    rewrite Hrun in E3. destruct E3 as (l & E3 & Hl).
    exists (h ++ ext), l. split.
    + destruct (chain cs cssSelectorBuilder h) as [h1 r1].
      simpl in E1, E3. by subst.
    + unfold stringify. by rewrite (Get_resolve own_string _ l o' E2 Hl).
  - intros k0 v0 h' l k v Hc.
    assert (Hne : cs ++ [(k0, v0)] <> []) by (by destruct cs).
    destruct (lineage_end h _ h' l Hh Hne Hc)
      as (o' & k' & Hh' & Hl & Hlast & Ha & _).
    rewrite kinds_snoc, last_snoc in Hlast. injection Hlast as <-.
    rewrite (call_completion h' l o' k v Hh' Hl), (outcome_after k0 k o' Ha).
    rewrite (checkOrder_completion h' l o' _ Hh' Hl), (after_order _ _ Ha).
    cbn [ToNumber default from_option Datatypes.id].
    split.
    + rewrite rank_ltb. by intros ->.
    + intros Heq. rewrite rank_ltb, (rank_eq_not_less k k0 Heq).
      split; [done |]. by destruct (singleton k && bool_decide (k = k0)).
  - by exists "Selector parts should be arranged in the following order: ".
Qed.

Lemma order_property_witness :
  (exists h' l,
     chain [(Element, "a"); (Class, "b"); (Class, "c"); (PseudoElement, "d")]
       cssSelectorBuilder initial_heap = (h', Normal l) /\
     stringify h' l = Some "a.b.c::d") /\
  (call Id 4 "x"
     (chain ([(Element, "a"); (Class, "b"); (Class, "c")] ++
             [(PseudoElement, "d")]) cssSelectorBuilder initial_heap).1).2 =
  Throw OrderViolation.
Proof.
  split.
  - apply (proj1 (order_property initial_heap
      [(Element, "a"); (Class, "b"); (Class, "c"); (PseudoElement, "d")]
      builder_heap_initial)).
    + reflexivity.
    + intros k Hk. destruct k; try discriminate Hk; vm_compute; lia.
  - apply (proj1 (proj2 (order_property initial_heap
      [(Element, "a"); (Class, "b"); (Class, "c")]
      builder_heap_initial)) PseudoElement "d" _ 4 Id "x");
      reflexivity.
Defined.

(** *** C9: the invariant of a lineage *)

(** C9: the state a successful chain from [cssSelectorBuilder] returns
    has, as [order], the rank of the last kind added, not below the
    [order] of the state that call was made on; each of its counters
    [elementNum], [idNum] and [pseodoEl] is at most 1; and on it, a call
    whose rank is below [order], or whose counter would pass 1, throws
    and returns no state. *)
Theorem lineage_invariant h cs k v h' l :
  builder_heap h ->
  chain (cs ++ [(k, v)]) cssSelectorBuilder h = (h', Normal l) ->
  Get own_order h' l = Some (rank k) /\
  (exists h0 l0,
     chain cs cssSelectorBuilder h = (h0, Normal l0) /\
     match Get own_order h0 l0 with
     | Some r => PrimFloat.leb r (rank k) = true
     | None => cs = []
     end) /\
  (exists e i p,
     Get own_elementNum h' l = Some e /\ PrimFloat.leb e 1 = true /\
     Get own_idNum h' l = Some i /\ PrimFloat.leb i 1 = true /\
     Get own_pseodoEl h' l = Some p /\ PrimFloat.leb p 1 = true) /\
  (forall k2 v2,
     PrimFloat.ltb (rank k2) (ToNumber (Get own_order h' l)) = true \/
     (exists c, counter k2 = Some c /\
        PrimFloat.ltb 1 (ToNumber (Get c h' l) + 1) = true) ->
     exists e, (call k2 l v2 h').2 = Throw e).
Proof.
  intros Hh Hc.
  assert (Hne : cs ++ [(k, v)] <> []) by (by destruct cs).
  destruct (lineage_end h _ h' l Hh Hne Hc)
    as (o' & k' & Hh' & Hl & Hlast & Ha & _).
  rewrite kinds_snoc, last_snoc in Hlast. injection Hlast as <-.
  destruct Ha as [Ho He Hi Hp].
  rewrite !(Get_resolve _ h' l o' Hh' Hl).
  split; [done |]. split; [| split].
  - rewrite chain_snoc in Hc.
    destruct (chain cs cssSelectorBuilder h) as [h0 [l0 | e]] eqn:Hcs;
      [| discriminate].
    exists h0, l0. split; [done |].
    destruct cs as [|c cs].
    + simpl in Hcs. injection Hcs as <- <-.
      by rewrite (Get_resolve _ h _ _ Hh (builder_heap_base h Hh)).
    + destruct (lineage_end h (c :: cs) h0 l0 Hh ltac:(done) Hcs)
        as (o0 & k0 & Hh0 & Hl0 & _ & Ha0 & _).
      rewrite (Get_resolve _ h0 l0 o0 Hh0 Hl0), (after_order _ _ Ha0).
      pose proof (call_completion h0 l0 o0 k v Hh0 Hl0) as Hk.
      rewrite Hc, (outcome_after k0 k o0 Ha0) in Hk. simpl in Hk.
      rewrite rank_leb. apply Nat.leb_le.
      destruct (rank_nat k <? rank_nat k0) eqn:E; [discriminate |].
      apply Nat.ltb_ge in E. lia.
  - exists (count_after k Element), (count_after k Id),
      (count_after k PseudoElement).
    by destruct k.
  - intros k2 v2 Hv. rewrite (call_completion h' l o' k2 v2 Hh' Hl).
    unfold outcome, order_fails, duplicate.
    destruct Hv as [Hv | (c & Hc1 & Hc2)].
    + rewrite Hv. by eexists.
    + rewrite (Get_resolve _ h' l o' Hh' Hl) in Hc2. rewrite Hc1, Hc2.
      destruct (PrimFloat.ltb (rank k2) _); eexists; reflexivity.
Qed.

Lemma lineage_invariant_witness :
  Get own_order
    (chain ([(Element, "a")] ++ [(Id, "b")])
       cssSelectorBuilder initial_heap).1 2
  = Some (rank Id).
Proof.
  apply (lineage_invariant initial_heap [(Element, "a")] Id "b").
  - apply builder_heap_initial.
  - reflexivity.
Defined.

(** *** C5 and C10: combine, and first calls *)

Lemma combine_spec h A B c oa ob :
  builder_heap h -> h !! A = Some oa -> h !! B = Some ob ->
  combine A c B h =
  (h ++ [{| own_string :=
              Some (ToString (resolve own_string oa) +:+ " " +:+ c +:+ " "
                    +:+ ToString (resolve own_string ob));
            own_elementNum := None; own_idNum := None;
            own_pseodoEl := None; own_order := None;
            proto := Some cssSelectorBuilder |}],
   Normal (length h)).
Proof. intros Hh HA HB. unfold_methods. by repeat run_step. Qed.

Lemma builder_heap_combine h A B c :
  builder_heap h -> is_Some (h !! A) -> is_Some (h !! B) ->
  builder_heap (combine A c B h).1.
Proof.
  intros Hh [oa HA] [ob HB]. rewrite (combine_spec h A B c oa ob Hh HA HB).
  by apply builder_heap_snoc.
Qed.

(** C5: [combine(A, c, B)] returns a new object whose text is A's text, a
    space, the combinator, a space and B's text; the heap is the old one
    with that object added, so A and B are as they were. *)
Theorem combine_text h A B c :
  builder_heap h -> is_Some (h !! A) -> is_Some (h !! B) ->
  exists o' sa sb,
    combine A c B h = (h ++ [o'], Normal (length h)) /\
    stringify h A = Some sa /\ stringify h B = Some sb /\
    stringify (h ++ [o']) (length h) = Some (sa +:+ " " +:+ c +:+ " " +:+ sb) /\
    stringify (h ++ [o']) A = Some sa /\ stringify (h ++ [o']) B = Some sb.
Proof.
  intros Hh [oa HA] [ob HB]. eexists _, _, _.
  split; [by apply combine_spec |]. unfold stringify.
  rewrite (Get_resolve _ h A oa Hh HA), (Get_resolve _ h B ob Hh HB).
  erewrite Get_new by (eassumption || reflexivity).
  erewrite (Get_old _ h A) by (eassumption || reflexivity).
  erewrite (Get_old _ h B) by (eassumption || reflexivity).
  by rewrite <- !resolve_string.
Qed.

Lemma combine_text_witness :
  exists o' sa sb,
    combine 0 "+" 0 initial_heap
      = (initial_heap ++ [o'], Normal (length initial_heap)) /\
    stringify initial_heap 0 = Some sa /\ stringify initial_heap 0 = Some sb /\
    stringify (initial_heap ++ [o']) (length initial_heap)
      = Some (sa +:+ " " +:+ "+" +:+ " " +:+ sb) /\
    stringify (initial_heap ++ [o']) 0 = Some sa /\
    stringify (initial_heap ++ [o']) 0 = Some sb.
Proof.
  apply (combine_text initial_heap 0 0 "+").
  - apply builder_heap_initial.
  - by eexists.
  - by eexists.
Defined.

Lemma call_fresh h this o k v :
  builder_heap h -> h !! this = Some o -> fresh o ->
  exists h' l, call k this v h = (h', Normal l).
Proof.
  intros Hh Ho Hf.
  pose proof (call_completion h this o k v Hh Ho) as Hc.
  rewrite (outcome_fresh k o Hf) in Hc.
  destruct (call k this v h) as [h' r]. simpl in Hc. subst r. by eexists _, _.
Qed.

(** C10: [cssSelectorBuilder] itself has the empty text, no [order] and
    counters 0, and a first call of any kind on it returns normally; the
    object [combine] returns owns its text only, neither [order] nor a
    counter, and a first call of any kind on it returns normally too. *)
Theorem first_call_never_throws h :
  builder_heap h ->
  (stringify h cssSelectorBuilder = Some "" /\
   Get own_order h cssSelectorBuilder = None /\
   Get own_elementNum h cssSelectorBuilder = Some 0%float /\
   Get own_idNum h cssSelectorBuilder = Some 0%float /\
   Get own_pseodoEl h cssSelectorBuilder = Some 0%float) /\
  (forall k v, exists h' l, call k cssSelectorBuilder v h = (h', Normal l)) /\
  (forall A B c, is_Some (h !! A) -> is_Some (h !! B) ->
     exists o',
       combine A c B h = (h ++ [o'], Normal (length h)) /\
       is_Some (own_string o') /\ own_order o' = None /\
       own_elementNum o' = None /\ own_idNum o' = None /\
       own_pseodoEl o' = None /\
       forall k v, exists h' l,
         call k (length h) v (h ++ [o']) = (h', Normal l)).
Proof.
  intros Hh. pose proof (builder_heap_base h Hh) as Hbase.
  split; [| split].
  - unfold stringify. by rewrite !(Get_resolve _ h _ _ Hh Hbase).
  - intros k v. by apply (call_fresh h _ _ k v Hh Hbase), fresh_literal.
  - intros A B c [oa HA] [ob HB]. eexists.
    split; [by apply combine_spec |].
    repeat (split; [done |]).
    intros k v. eapply call_fresh.
    + by apply builder_heap_snoc.
    + by apply list_lookup_middle.
    + by repeat split.
Qed.

Lemma first_call_never_throws_witness :
  stringify initial_heap cssSelectorBuilder = Some "" /\
  (exists h' l,
     call PseudoElement cssSelectorBuilder "first-line" initial_heap
       = (h', Normal l)).
Proof.
  pose proof (first_call_never_throws initial_heap builder_heap_initial)
    as (Hb & Hc & _).
  split; [apply Hb | apply Hc].
Defined.

(** *** C3: no call changes an existing object *)

Lemma stringify_is_Some h this s :
  stringify h this = Some s -> is_Some (h !! this).
Proof.
  unfold stringify, Get. destruct (length h) as [|n]; [done |].
  simpl. by destruct (h !! this).
Qed.

Lemma Get_extend {A} (p : object -> option A) h ext l :
  builder_heap h -> builder_heap (h ++ ext) -> is_Some (h !! l) ->
  Get p (h ++ ext) l = Get p h l.
Proof.
  intros Hh Hh' [o Ho].
  rewrite (Get_resolve p h l o Hh Ho).
  apply Get_resolve; [done | by apply lookup_app_l_Some].
Qed.

(** C3: a part call leaves the heap as it was, with one new object at its
    end, whether it returns or throws; the object returned is the new one;
    the receiver reads as before (text, order, counters).  Hence for two
    chains started from one receiver, what the second yields (its text or
    its error) does not depend on the first having run, and the text of
    the first's result is not changed by the second. *)
Theorem calls_do_not_mutate h this :
  builder_heap h -> is_Some (h !! this) ->
  (forall k v, exists o',
     (call k this v h).1 = h ++ [o'] /\
     builder_heap (h ++ [o']) /\
     (forall l, (call k this v h).2 = Normal l -> l = length h) /\
     stringify (h ++ [o']) this = stringify h this /\
     Get own_order (h ++ [o']) this = Get own_order h this /\
     Get own_elementNum (h ++ [o']) this = Get own_elementNum h this /\
     Get own_idNum (h ++ [o']) this = Get own_idNum h this /\
     Get own_pseodoEl (h ++ [o']) this = Get own_pseodoEl h this) /\
  (forall cs1 cs2,
     let first := chain cs1 this h in
     observe (chain cs2 this first.1) = observe (chain cs2 this h) /\
     observe ((chain cs2 this first.1).1, first.2) = observe first).
Proof.
  intros Hh [o Ho]. split.
  - intros k v.
    destruct (call_spec h this o k v Hh Ho) as (o' & H1 & H2 & Hp & _).
    pose proof (builder_heap_snoc h o' Hh Hp) as Hh'.
    exists o'. split; [done |]. split; [done |]. split.
    { intros l. rewrite H2. destruct (outcome k o); congruence. }
    unfold stringify. by rewrite !(Get_extend _ h [o'] this Hh Hh').
  - intros cs1 cs2 first.
    destruct (chain_spec cs1 h this o Hh Ho) as (ext1 & E1 & Hh1 & R1).
    fold first in E1, R1.
    assert (Ho1 : first.1 !! this = Some o)
      by (rewrite E1; by apply lookup_app_l_Some).
    rewrite <- E1 in Hh1.
    destruct (chain_spec cs2 _ this o Hh1 Ho1) as (ext2 & E2 & Hh2 & R2).
    destruct (chain_spec cs2 h this o Hh Ho) as (ext2' & E2' & Hh2' & R2').
    unfold observe, stringify. split.
    + destruct (run cs2 o) as [e | o2].
      * by rewrite R2, R2'.
      * destruct R2 as (l & -> & Hl), R2' as (l' & -> & Hl').
        rewrite E2, E2'.
        by rewrite (Get_resolve _ _ l o2 Hh2 Hl), (Get_resolve _ _ l' o2 Hh2' Hl').
    + cbn [fst snd]. destruct (run cs1 o) as [e | o1].
      * by rewrite R1.
      * destruct R1 as (l1 & -> & Hl1). rewrite <- E1 in Hl1. rewrite E2.
        f_equal. apply Get_extend; by eauto.
Qed.

Lemma calls_do_not_mutate_witness :
  observe
    (chain [(Id, "main")] 1
       (chain [(Class, "a"); (Id, "b")] 1
          (chain [(Element, "div")] cssSelectorBuilder initial_heap).1).1)
  = observe
      (chain [(Id, "main")] 1
         (chain [(Element, "div")] cssSelectorBuilder initial_heap).1).
Proof.
  apply (proj2 (calls_do_not_mutate
    (chain [(Element, "div")] cssSelectorBuilder initial_heap).1 1
    ltac:(eexists; split; [reflexivity | by repeat constructor])
    ltac:(by eexists)) [(Class, "a"); (Id, "b")] [(Id, "main")]).
Defined.

(** *** C6: the text each part adds *)

Lemma call_text h this k v s h' l :
  builder_heap h -> stringify h this = Some s ->
  call k this v h = (h', Normal l) ->
  stringify h' l = Some (s +:+ render k v).
Proof.
  intros Hh Hs Hc. destruct (stringify_is_Some h this s Hs) as [o Ho].
  unfold stringify in Hs. rewrite (Get_resolve _ h this o Hh Ho) in Hs.
  destruct (call_spec h this o k v Hh Ho) as (o' & H1 & H2 & Hp & Hm).
  rewrite Hc in H1, H2. simpl in H1, H2.
  destruct (outcome k o); [discriminate |].
  injection H2 as ->. rewrite (Hm eq_refl) in H1. subst h'.
  unfold stringify. erewrite Get_new by (eassumption || reflexivity).
  by rewrite made_string, Hs.
Qed.

(** C6: a part call that returns puts behind the receiver's text the value
    as it is for [element], after ['#'] for [id], after ['.'] for [class],
    between ['['] and [']'] for [attr], after [':'] for [pseudoClass] and
    after ['::'] for [pseudoElement]; the two examples of the source give
    ['#main.container.editable'] and ['a[href$=".png"]:focus']. *)
Theorem part_text :
  (forall h this v s,
     builder_heap h -> stringify h this = Some s ->
     (forall h' l, element this v h = (h', Normal l) ->
        stringify h' l = Some (s +:+ v)) /\
     (forall h' l, id this v h = (h', Normal l) ->
        stringify h' l = Some (s +:+ "#" +:+ v)) /\
     (forall h' l, class this v h = (h', Normal l) ->
        stringify h' l = Some (s +:+ "." +:+ v)) /\
     (forall h' l, attr this v h = (h', Normal l) ->
        stringify h' l = Some (s +:+ "[" +:+ v +:+ "]")) /\
     (forall h' l, pseudoClass this v h = (h', Normal l) ->
        stringify h' l = Some (s +:+ ":" +:+ v)) /\
     (forall h' l, pseudoElement this v h = (h', Normal l) ->
        stringify h' l = Some (s +:+ "::" +:+ v))) /\
  observe ((l1 ← id cssSelectorBuilder "main";
            l2 ← class l1 "container";
            class l2 "editable") initial_heap)
  = inr (Some "#main.container.editable") /\
  observe ((l1 ← element cssSelectorBuilder "a";
            l2 ← attr l1 ("href$=" +:+ dquote +:+ ".png" +:+ dquote);
            pseudoClass l2 "focus") initial_heap)
  = inr (Some ("a[href$=" +:+ dquote +:+ ".png" +:+ dquote +:+ "]:focus")).
Proof.
  split; [| split; reflexivity].
  intros h this v s Hh Hs.
  repeat split; intros h' l Hc.
  - apply (call_text h this Element v s h' l Hh Hs Hc).
  - apply (call_text h this Id v s h' l Hh Hs Hc).
  - apply (call_text h this Class v s h' l Hh Hs Hc).
  - apply (call_text h this Attr v s h' l Hh Hs Hc).
  - apply (call_text h this PseudoClass v s h' l Hh Hs Hc).
  - apply (call_text h this PseudoElement v s h' l Hh Hs Hc).
Qed.

Lemma part_text_witness :
  stringify (attr cssSelectorBuilder "lang" initial_heap).1 1
  = Some ("" +:+ "[" +:+ "lang" +:+ "]").
Proof.
  apply (proj1 part_text initial_heap cssSelectorBuilder "lang" "").
  - apply builder_heap_initial.
  - reflexivity.
  - reflexivity.
Defined.

(** * Properties of Rectangle *)

Lemma alter_snoc {A} (g : A -> A) (l : list A) (x : A) :
  alter g (length l) (l ++ [x]) = l ++ [g x].
Proof.
  replace (length l) with (length l + 0) at 1 by lia.
  by rewrite (alter_app_r g l [x] 0).
Qed.

(** The example of the source: [new Rectangle(10, 20)]. *)
Example rectangle_10_20 :
  let (h, r) := Rect.Rectangle 10 20 [] in
  Rect.width h r = Some 10%float /\ Rect.height h r = Some 20%float /\
  Rect.getArea h r = Normal 200%float.
Proof. by repeat split. Qed.

(** C8: [new Rectangle(w, h)] returns an object whose [width] is [w] and
    whose [height] is [h], and whose [getArea()] is [w * h]; [getArea()]
    multiplies the fields as they are at the call: after an assignment to
    [width] or to [height] it returns the product of the new values. *)
Theorem rectangle_area (h : Rect.heap) (w ht : float) :
  let r := (Rect.Rectangle w ht h).2 in
  let h' := (Rect.Rectangle w ht h).1 in
  Rect.width h' r = Some w /\
  Rect.height h' r = Some ht /\
  Rect.getArea h' r = Normal (w * ht)%float /\
  (forall w2, Rect.getArea (alter (Rect.set_width w2) r h') r
              = Normal (w2 * ht)%float) /\
  (forall h2, Rect.getArea (alter (Rect.set_height h2) r h') r
              = Normal (w * h2)%float) /\
  (forall l o, h !! l = Some o -> h' !! l = Some o).
Proof.
  unfold Rect.Rectangle. cbn [fst snd]. rewrite !alter_snoc.
  unfold Rect.getArea, Rect.width, Rect.height.
  split; [| split; [| split; [| split; [| split]]]].
  - by rewrite list_lookup_middle.
  - by rewrite list_lookup_middle.
  - repeat (rewrite list_lookup_middle by done; simpl). reflexivity.
  - intros w2. rewrite alter_snoc.
    repeat (rewrite list_lookup_middle by done; simpl). reflexivity.
  - intros h2. rewrite alter_snoc.
    repeat (rewrite list_lookup_middle by done; simpl). reflexivity.
  - intros l o Hl. by apply lookup_app_l_Some.
Qed.

(** * Properties of fromJSON *)

Lemma lookup_chain_snoc h x key : forall fuel p,
  Json.closed h -> p < length h ->
  Json.lookup_chain (h ++ [x]) fuel p key = Json.lookup_chain h fuel p key.
Proof.
  induction fuel as [|fuel IH]; intros p Hh Hp; [reflexivity |].
  cbn [Json.lookup_chain]. rewrite lookup_app_l by done.
  destruct (h !! p) as [o|] eqn:Ho; [| done].
  destruct (Json.own o !! key); [done |].
  destruct (Json.prototype o) as [q|] eqn:Hq; [| done].
  apply IH; [done | by eapply Hh].
Qed.

(** C7: when the text parses to an object, [fromJSON(proto, json)] returns
    a new object whose own properties are exactly the parsed fields and
    whose prototype is [proto]: a lookup finds the parsed field, and any
    other key is looked up on [proto]; nothing of [proto] is copied and no
    object of the heap is changed.  When the parser throws, [fromJSON]
    throws the same error. *)
Theorem fromJSON_spec (JSON_parse : string -> exn + Json.json)
    (h : Json.heap) (proto : option loc) (json : string) :
  Json.closed h -> (forall p, proto = Some p -> p < length h) ->
  (forall e, JSON_parse json = inl e ->
     Json.fromJSON JSON_parse proto json h = (h, Throw e)) /\
  (forall fields, JSON_parse json = inr (Json.JObject fields) ->
     exists o,
       Json.fromJSON JSON_parse proto json h = (h ++ [o], Normal (length h)) /\
       Json.own o = Json.Data <$> fields /\
       Json.prototype o = proto /\
       forall key,
         Json.Get (h ++ [o]) (length h) key =
         match fields !! key with
         | Some j => Some (Json.Data j)
         | None => Json.Get_proto h proto key
         end).
Proof.
  intros Hh Hproto. unfold Json.fromJSON. split.
  - by intros e ->.
  - intros fields ->. eexists. rewrite alter_snoc.
    split; [reflexivity |]. split; [reflexivity |]. split; [reflexivity |].
    intros key. unfold Json.Get. rewrite length_app, Nat.add_comm.
    cbn [length Nat.add Json.lookup_chain].
    rewrite list_lookup_middle by done.
    cbn [Json.own Json.prototype Json.set_prototype Json.spread].
    rewrite lookup_fmap. destruct (fields !! key) as [j|]; [done |].
    cbn [fmap option_fmap option_map].
    destruct proto as [p|]; [| done].
    apply lookup_chain_snoc; [done | by apply Hproto].
Qed.

Lemma fromJSON_spec_witness :
  (Json.fromJSON Json.parse_radius (Some 0) "radius" [Json.Circle_prototype]
   = ([Json.Circle_prototype], Throw (SyntaxError "Unexpected token"))) /\
  (exists o,
     Json.fromJSON Json.parse_radius (Some 0)
       ("{" +:+ dquote +:+ "radius" +:+ dquote +:+ ":10}") [Json.Circle_prototype]
     = ([Json.Circle_prototype] ++ [o], Normal 1) /\
     Json.Get ([Json.Circle_prototype] ++ [o]) 1 "radius"
     = Some (Json.Data (Json.JNumber 10)) /\
     Json.Get ([Json.Circle_prototype] ++ [o]) 1 "getCircumference"
     = Some (Json.Function "getCircumference")).
Proof.
  assert (Hc : Json.closed [Json.Circle_prototype]).
  { intros [|l] o p Hl Hp; simpl in Hl; [| done].
    injection Hl as <-. discriminate Hp. }
  assert (Hp : forall p, Some 0 = Some p -> p < length [Json.Circle_prototype]).
  { intros p [= <-]. simpl. lia. }
  split.
  - by apply (proj1 (fromJSON_spec Json.parse_radius [Json.Circle_prototype] (Some 0)
                       "radius" Hc Hp)).
  - destruct (proj2 (fromJSON_spec Json.parse_radius [Json.Circle_prototype] (Some 0)
                       ("{" +:+ dquote +:+ "radius" +:+ dquote +:+ ":10}")
                       Hc Hp) {[ "radius" := Json.JNumber 10 ]} eq_refl)
      as (o & Hf & _ & _ & Hget).
    exists o. split; [exact Hf |]. split.
    + etrans; [exact (Hget "radius") | reflexivity].
    + etrans; [exact (Hget "getCircumference") | reflexivity].
Defined.

(** * Further properties of the selector builder *)

(** *** Which chains succeed, and which error the others give *)

Lemma chain_completion h cs this o :
  builder_heap h -> h !! this = Some o ->
  match run cs o with
  | inl e => (chain cs this h).2 = Throw e
  | inr o' =>
      exists l, chain cs this h = ((chain cs this h).1, Normal l) /\
                builder_heap (chain cs this h).1 /\
                (chain cs this h).1 !! l = Some o'
  end.
Proof.
  intros Hh Ho.
  destruct (chain_spec cs h this o Hh Ho) as (ext & E1 & E2 & E3).
  destruct (run cs o) as [e | o']; [done |].
  destruct E3 as (l & E3 & Hl). exists l. rewrite E1.
  split; [| done]. destruct (chain cs this h) as [h1 r1].
  simpl in E1, E3. by subst.
Qed.

Lemma step_error_outcome k0 k o :
  after k0 o -> outcome k o = step_error k0 k.
Proof.
  intros Ha. rewrite (outcome_after k0 k o Ha). unfold step_error.
  by rewrite rank_ltb.
Qed.

Lemma run_first_error cs : forall k0 o,
  after k0 o ->
  match first_error k0 (kinds cs) with
  | Some e => run cs o = inl e
  | None => exists o', run cs o = inr o'
  end.
Proof.
  induction cs as [|[k v] cs IH]; intros k0 o Ha; [by exists o |].
  cbn [kinds map fst first_error run].
  rewrite (step_error_outcome k0 k o Ha).
  destruct (step_error k0 k) as [e|] eqn:Hs; [done |].
  apply (IH k). apply made_after; [eauto |].
  by rewrite (step_error_outcome k0 k o Ha).
Qed.

Lemma run_chain_error cs o :
  fresh o ->
  match chain_error (kinds cs) with
  | Some e => run cs o = inl e
  | None => exists o', run cs o = inr o'
  end.
Proof.
  intros Hf. destruct cs as [|[k v] cs]; [by exists o |].
  cbn [kinds map fst chain_error run]. rewrite (outcome_fresh k o Hf).
  apply (run_first_error cs k). apply made_after; [by left |].
  by apply outcome_fresh.
Qed.

(** X1: whether a chain from [cssSelectorBuilder] succeeds, and with which
    error it fails, is decided by neighbouring kinds alone: the first call
    whose rank is below its predecessor's gives the order error, the first
    singleton kind that follows itself gives the duplicate error, whichever
    comes first; with neither, the chain returns. *)
Theorem chain_error_decides h cs :
  builder_heap h ->
  match chain_error (kinds cs) with
  | Some e => (chain cs cssSelectorBuilder h).2 = Throw e
  | None =>
      exists h' l,
        chain cs cssSelectorBuilder h = (h', Normal l) /\
        stringify h' l = Some (text_of cs)
  end.
Proof.
  intros Hh. pose proof (builder_heap_base h Hh) as Hbase.
  pose proof (chain_completion h cs _ _ Hh Hbase) as Hc.
  pose proof (run_chain_error cs _ fresh_literal) as Hr.
  destruct (chain_error (kinds cs)) as [e|].
  - by rewrite Hr in Hc.
  - destruct Hr as [o' Hr]. rewrite Hr in Hc.
    destruct Hc as (l & Hc & Hh' & Hl). eexists _, l. split; [exact Hc |].
    unfold stringify. rewrite (Get_resolve _ _ l o' Hh' Hl).
    destruct cs as [|[k v] cs].
    + by injection Hr as <-.
    + by destruct (run_fresh k v cs _ o' fresh_literal Hr)
        as (? & _ & _ & _ & ->).
Qed.

Lemma chain_error_decides_witness :
  (chain [(Element, "a"); (Class, "b"); (Id, "c"); (Id, "d")]
     cssSelectorBuilder initial_heap).2 = Throw OrderViolation.
Proof.
  apply (chain_error_decides initial_heap
           [(Element, "a"); (Class, "b"); (Id, "c"); (Id, "d")]).
  apply builder_heap_initial.
Defined.

Lemma nondecreasing_head ks : forall k x,
  nondecreasing (k :: ks) = true -> x ∈ ks -> rank_nat k <= rank_nat x.
Proof.
  induction ks as [|k1 ks IH]; intros k x Hs Hx; [inversion Hx |].
  cbn [nondecreasing] in Hs. apply andb_prop in Hs as [H1 Hs].
  rewrite rank_leb in H1. apply Nat.leb_le in H1.
  apply elem_of_cons in Hx as [-> | Hx]; [done |].
  specialize (IH k1 x Hs Hx). lia.
Qed.

Lemma at_most_once_intro k ks :
  at_most_once ks -> (singleton k = true -> k ∉ ks) -> at_most_once (k :: ks).
Proof.
  intros Hks Hk k' Hk'. simpl. destruct (part_eq_dec k k') as [-> | Hne].
  - assert (count_occ part_eq_dec ks k' = 0); [| lia].
    apply count_occ_not_In. rewrite <- list_elem_of_In. by apply Hk.
  - by apply Hks.
Qed.

(** A chain that succeeds repeats no singleton kind. *)
Lemma run_once cs : forall k0 o o',
  after k0 o -> run cs o = inr o' ->
  at_most_once (kinds cs) /\ (singleton k0 = true -> k0 ∉ kinds cs).
Proof.
  induction cs as [|[k v] cs IH]; intros k0 o o' Ha Hrun.
  - split; [intros k _; simpl; lia | intros _ Hin; inversion Hin].
  - destruct (run_after _ k0 o o' Ha Hrun) as (_ & _ & _ & Hs & _).
    simpl in Hrun. destruct (outcome k o) eqn:Hout; [discriminate |].
    assert (Hk : after k (made k o v)) by (apply made_after; eauto).
    destruct (IH k _ _ Hk Hrun) as [Honce Hkcs].
    change (kinds ((k, v) :: cs)) with (k :: kinds cs) in *.
    rewrite (outcome_after k0 k o Ha) in Hout.
    destruct (rank_nat k <? rank_nat k0) eqn:E; [discriminate |].
    apply Nat.ltb_ge in E.
    split; [by apply at_most_once_intro |].
    intros Hk0 Hin. apply elem_of_cons in Hin as [<- | Hin].
    + rewrite Hk0 in Hout. by rewrite bool_decide_eq_true_2 in Hout.
    + pose proof (nondecreasing_head _ k k0 (nondecreasing_cons _ _ Hs) Hin).
      assert (k = k0) as -> by (apply rank_nat_inj; lia).
      by apply Hkcs.
Qed.

(** X2: a chain from [cssSelectorBuilder] returns exactly when its ranks
    never go down and none of element, id and pseudoElement is called
    twice. *)
Theorem chain_succeeds_iff h cs :
  builder_heap h ->
  (exists h' l, chain cs cssSelectorBuilder h = (h', Normal l)) <->
  nondecreasing (kinds cs) = true /\ at_most_once (kinds cs).
Proof.
  intros Hh. pose proof (builder_heap_base h Hh) as Hbase.
  pose proof (chain_completion h cs _ _ Hh Hbase) as Hc.
  split.
  - intros (h' & l & Hch).
    destruct (chain_normal h cs _ _ h' l Hh Hbase Hch)
      as (o' & ext & _ & _ & Hrun & _).
    destruct cs as [|[k v] cs]; [split; [done | intros k _; simpl; lia] |].
    destruct (run_fresh k v cs _ o' fresh_literal Hrun) as (_ & _ & _ & Hs & _).
    split; [done |].
    simpl in Hrun. rewrite (outcome_fresh k _ fresh_literal) in Hrun.
    assert (Hk : after k (made k cssSelectorBuilder_literal v)).
    { apply made_after; [left; apply fresh_literal |].
      apply outcome_fresh, fresh_literal. }
    destruct (run_once cs k _ o' Hk Hrun) as [Honce Hkcs].
    by apply at_most_once_intro.
  - intros [Hs Honce].
    assert (exists o', run cs cssSelectorBuilder_literal = inr o') as [o' Hrun].
    { destruct cs as [|[k v] cs]; [by eexists |].
      change (kinds ((k, v) :: cs)) with (k :: kinds cs) in *.
      apply at_most_once_cons in Honce as [Honce Hk].
      simpl. rewrite (outcome_fresh k _ fresh_literal).
      apply (run_sorted cs k); try done.
      apply made_after; [left; apply fresh_literal |].
      apply outcome_fresh, fresh_literal. }
    rewrite Hrun in Hc. destruct Hc as (l & Hc & _). by eexists _, l.
Qed.

Lemma chain_succeeds_iff_witness :
  (exists h' l,
     chain [(Id, "x"); (Attr, "y"); (Attr, "z")] cssSelectorBuilder initial_heap
     = (h', Normal l)) <->
  nondecreasing (kinds [(Id, "x"); (Attr, "y"); (Attr, "z")]) = true /\
  at_most_once (kinds [(Id, "x"); (Attr, "y"); (Attr, "z")]).
Proof.
  apply (chain_succeeds_iff initial_heap [(Id, "x"); (Attr, "y"); (Attr, "z")]).
  apply builder_heap_initial.
Defined.

(** *** Text and checks of a chain from any receiver *)

Lemma run_text cs : forall o o',
  run cs o = inr o' ->
  resolve own_string o' = Some (ToString (resolve own_string o) +:+ text_of cs).
Proof.
  induction cs as [|[k v] cs IH]; intros o o' Hrun; simpl in Hrun.
  - injection Hrun as <-. cbn [text_of]. rewrite append_nil_r.
    apply resolve_string.
  - destruct (outcome k o); [discriminate |].
    rewrite (IH _ _ Hrun), made_string.
    cbn [ToString default from_option Datatypes.id text_of].
    by rewrite append_assoc.
Qed.

(** X3: from any receiver, a chain that returns yields the receiver's text
    followed by the text of its parts, in call order; nothing of the
    receiver's text is dropped or rewritten. *)
Theorem chain_text h this cs h' l :
  builder_heap h -> is_Some (h !! this) ->
  chain cs this h = (h', Normal l) ->
  exists s,
    stringify h this = Some s /\ stringify h' l = Some (s +:+ text_of cs).
Proof.
  intros Hh [o Ho] Hc.
  destruct (chain_normal h cs this o h' l Hh Ho Hc)
    as (o' & ext & _ & Hh' & Hrun & Hl).
  exists (ToString (resolve own_string o)). unfold stringify.
  rewrite (Get_resolve _ h this o Hh Ho), (Get_resolve _ h' l o' Hh' Hl).
  split; [apply resolve_string | by apply run_text].
Qed.

Lemma chain_text_witness :
  exists s,
    stringify (chain [(Element, "ul")] cssSelectorBuilder initial_heap).1 1
    = Some s /\
    stringify
      (chain [(Class, "nav"); (PseudoClass, "hover")] 1
         (chain [(Element, "ul")] cssSelectorBuilder initial_heap).1).1 3
    = Some (s +:+ text_of [(Class, "nav"); (PseudoClass, "hover")]).
Proof.
  apply (chain_text
           (chain [(Element, "ul")] cssSelectorBuilder initial_heap).1 1
           [(Class, "nav"); (PseudoClass, "hover")]).
  - eexists. split; [reflexivity | by repeat constructor].
  - by eexists.
  - reflexivity.
Defined.

(** X4: parts can be appended to what [combine] returns under the same
    rule as to [cssSelectorBuilder], whatever parts the two combined
    selectors hold: the chain fails with the error its neighbouring kinds
    decide, or returns the combined text followed by the text of its
    parts. *)
Theorem chain_on_combined h A B c cs :
  builder_heap h -> is_Some (h !! A) -> is_Some (h !! B) ->
  exists h1 l1 s,
    combine A c B h = (h1, Normal l1) /\ stringify h1 l1 = Some s /\
    match chain_error (kinds cs) with
    | Some e => (chain cs l1 h1).2 = Throw e
    | None =>
        exists h' l,
          chain cs l1 h1 = (h', Normal l) /\
          stringify h' l = Some (s +:+ text_of cs)
    end.
Proof.
  intros Hh [oa HA] [ob HB].
  pose proof (combine_spec h A B c oa ob Hh HA HB) as Hcomb.
  set (o1 := {| own_string := _ |}) in Hcomb.
  assert (Hh1 : builder_heap (h ++ [o1])) by (by apply builder_heap_snoc).
  assert (Hl1 : (h ++ [o1]) !! length h = Some o1)
    by (by apply list_lookup_middle).
  assert (Hf : fresh o1) by (by repeat split).
  exists (h ++ [o1]), (length h), (ToString (resolve own_string o1)).
  split; [done |]. split.
  { unfold stringify. rewrite (Get_resolve _ _ _ o1 Hh1 Hl1).
    apply resolve_string. }
  pose proof (chain_completion _ cs _ _ Hh1 Hl1) as Hc.
  pose proof (run_chain_error cs o1 Hf) as Hr.
  destruct (chain_error (kinds cs)) as [e|].
  - by rewrite Hr in Hc.
  - destruct Hr as [o' Hr]. rewrite Hr in Hc.
    destruct Hc as (l & Hc & Hh' & Hl). eexists _, l. split; [exact Hc |].
    unfold stringify. rewrite (Get_resolve _ _ l o' Hh' Hl).
    by apply run_text.
Qed.

Lemma chain_on_combined_witness :
  exists h1 l1 s,
    combine 1 ">" 1 (chain [(Element, "li")] cssSelectorBuilder initial_heap).1
    = (h1, Normal l1) /\
    stringify h1 l1 = Some s /\
    match chain_error (kinds [(Element, "a"); (Class, "b")]) with
    | Some e => (chain [(Element, "a"); (Class, "b")] l1 h1).2 = Throw e
    | None =>
        exists h' l,
          chain [(Element, "a"); (Class, "b")] l1 h1 = (h', Normal l) /\
          stringify h' l = Some (s +:+ text_of [(Element, "a"); (Class, "b")])
    end.
Proof.
  apply (chain_on_combined
           (chain [(Element, "li")] cssSelectorBuilder initial_heap).1
           1 1 ">" [(Element, "a"); (Class, "b")]).
  - eexists. split; [reflexivity | by repeat constructor].
  - by eexists.
  - by eexists.
Defined.

(** X5: combining is associative on the text: [combine(combine(A, c1, B),
    c2, C)] and [combine(A, c1, combine(B, c2, C))] stringify to the same
    selector. *)
Theorem combine_assoc h A B C c1 c2 :
  builder_heap h ->
  is_Some (h !! A) -> is_Some (h !! B) -> is_Some (h !! C) ->
  observe ((l1 ← combine A c1 B; combine l1 c2 C) h)
  = observe ((r1 ← combine B c2 C; combine A c1 r1) h)
  /\ exists s, observe ((l1 ← combine A c1 B; combine l1 c2 C) h)
               = inr (Some s).
Proof.
  intros Hh [oa HA] [ob HB] [oc HC].
  unfold mbind, M_bind.
  rewrite (combine_spec h A B c1 oa ob Hh HA HB).
  rewrite (combine_spec h B C c2 ob oc Hh HB HC).
  set (o1 := {| own_string := _ |}). set (o2 := {| own_string := _ |}).
  assert (Hh1 : builder_heap (h ++ [o1])) by (by apply builder_heap_snoc).
  assert (Hh2 : builder_heap (h ++ [o2])) by (by apply builder_heap_snoc).
  rewrite (combine_spec (h ++ [o1]) (length h) C c2 o1 oc Hh1
             ltac:(by apply list_lookup_middle)
             ltac:(by apply lookup_app_l_Some)).
  rewrite (combine_spec (h ++ [o2]) A (length h) c1 oa o2 Hh2
             ltac:(by apply lookup_app_l_Some)
             ltac:(by apply list_lookup_middle)).
  unfold observe, stringify. cbn [fst snd].
  erewrite !Get_new by (eassumption || reflexivity).
  cbn [resolve own_string o1 o2 ToString default from_option Datatypes.id].
  split; [| by eexists].
  by rewrite !append_assoc.
Qed.

Lemma combine_assoc_witness :
  observe ((l1 ← combine 0 "+" 0; combine l1 "~" 0) initial_heap)
  = observe ((r1 ← combine 0 "~" 0; combine 0 "+" r1) initial_heap).
Proof.
  apply (combine_assoc initial_heap 0 0 0 "+" "~").
  - apply builder_heap_initial.
  - by eexists.
  - by eexists.
  - by eexists.
Defined.

(** X6: the counters do not count along the lineage.  On the result of a
    chain from [cssSelectorBuilder], the counter of the kind called last
    reads 1 if that kind is a singleton, and every other counter reads 0,
    whatever was called before. *)
Theorem counters_after_chain h cs k v h' l :
  builder_heap h ->
  chain (cs ++ [(k, v)]) cssSelectorBuilder h = (h', Normal l) ->
  Get own_elementNum h' l = Some (count_after k Element) /\
  Get own_idNum h' l = Some (count_after k Id) /\
  Get own_pseodoEl h' l = Some (count_after k PseudoElement).
Proof.
  intros Hh Hc.
  assert (Hne : cs ++ [(k, v)] <> []) by (by destruct cs).
  destruct (lineage_end h _ h' l Hh Hne Hc)
    as (o' & k' & Hh' & Hl & Hlast & Ha & _).
  rewrite kinds_snoc, last_snoc in Hlast. injection Hlast as <-.
  destruct Ha as [_ He Hi Hp].
  by rewrite !(Get_resolve _ h' l o' Hh' Hl).
Qed.

Lemma counters_after_chain_witness :
  Get own_elementNum
    (chain ([(Element, "a")] ++ [(Id, "b")]) cssSelectorBuilder initial_heap).1
    2
  = Some (count_after Id Element).
Proof.
  apply (counters_after_chain initial_heap [(Element, "a")] Id "b").
  - apply builder_heap_initial.
  - reflexivity.
Defined.

(** * Further properties of Rectangle *)

Lemma rect_lookup_first (h : Rect.heap) x y :
  (h ++ [x; y]) !! length h = Some x.
Proof. by apply list_lookup_middle. Qed.

Lemma rect_lookup_second (h : Rect.heap) x y :
  (h ++ [x; y]) !! S (length h) = Some y.
Proof.
  rewrite (cons_middle x h [y]), app_assoc.
  apply list_lookup_middle. rewrite length_app. simpl. lia.
Qed.

Lemma rect_two (h : Rect.heap) w1 h1 w2 h2 :
  exists x y,
    (Rect.Rectangle w2 h2 (Rect.Rectangle w1 h1 h).1).1 = h ++ [x; y] /\
    (Rect.Rectangle w1 h1 h).2 = length h /\
    (Rect.Rectangle w2 h2 (Rect.Rectangle w1 h1 h).1).2 = S (length h) /\
    x = Rect.mkObject (Some w1) (Some h1) (Some (Rect.GetArea (length h))) /\
    y = Rect.mkObject (Some w2) (Some h2)
          (Some (Rect.GetArea (S (length h)))).
Proof.
  eexists _, _. unfold Rect.Rectangle. cbn [fst snd]. rewrite !alter_snoc.
  rewrite <- app_assoc, !length_app. cbn [length app].
  rewrite !Nat.add_1_r.
  split; [reflexivity |]. split; [reflexivity |]. split; [reflexivity |].
  split; reflexivity.
Qed.

Ltac rect_eval :=
  unfold Rect.getArea, Rect.width, Rect.height;
  repeat (first [ rewrite rect_lookup_first
                | rewrite rect_lookup_second
                | rewrite list_lookup_alter_ne by lia
                | rewrite list_lookup_alter_eq ];
          cbn [mbind option_bind fmap option_fmap option_map
               Rect.own_getArea Rect.own_width Rect.own_height
               Rect.set_getArea Rect.set_width Rect.set_height]);
  try reflexivity.

(** X7: two rectangles are two objects: each [getArea()] returns the
    product of its own fields, and assigning to a field of the second
    leaves the area of the first as it was. *)
Theorem rectangles_independent (h : Rect.heap) (w1 h1 w2 h2 : float) :
  let first := Rect.Rectangle w1 h1 h in
  let second := Rect.Rectangle w2 h2 first.1 in
  first.2 <> second.2 /\
  Rect.getArea second.1 first.2 = Normal (w1 * h1)%float /\
  Rect.getArea second.1 second.2 = Normal (w2 * h2)%float /\
  (forall w,
     Rect.getArea (alter (Rect.set_width w) second.2 second.1) first.2
     = Normal (w1 * h1)%float) /\
  (forall w,
     Rect.getArea (alter (Rect.set_height w) second.2 second.1) first.2
     = Normal (w1 * h1)%float).
Proof.
  intros first second. subst first second.
  destruct (rect_two h w1 h1 w2 h2) as (x & y & -> & -> & -> & -> & ->).
  split; [lia |]. split; [| split; [| split]].
  - rect_eval.
  - rect_eval.
  - intros w. rect_eval.
  - intros w. rect_eval.
Qed.

(** X8: the arrow function keeps the rectangle it was made for: after
    [second.getArea = first.getArea], the call [second.getArea()] returns
    the area of [first], not the product of [second]'s own fields. *)
Theorem getArea_keeps_its_rectangle (h : Rect.heap) (w1 h1 w2 h2 : float) :
  let first := Rect.Rectangle w1 h1 h in
  let second := Rect.Rectangle w2 h2 first.1 in
  exists f,
    second.1 !! first.2 ≫= Rect.own_getArea = Some f /\
    Rect.getArea (alter (Rect.set_getArea f) second.2 second.1) second.2
    = Normal (w1 * h1)%float.
Proof.
  intros first second. subst first second.
  destruct (rect_two h w1 h1 w2 h2) as (x & y & -> & -> & -> & -> & ->).
  eexists. split; [by rewrite rect_lookup_first |]. rect_eval.
Qed.

(** * Further properties of fromJSON *)

Lemma fromJSON_returns JSON_parse (h : Json.heap) proto json v :
  JSON_parse json = inr v ->
  Json.fromJSON JSON_parse proto json h
  = (h ++ [Json.mkObject (Json.spread v) proto], Normal (length h)).
Proof. intros Hv. unfold Json.fromJSON. by rewrite Hv, alter_snoc. Qed.

Lemma Get_new_object (h : Json.heap) own proto key :
  Json.closed h -> (forall p, proto = Some p -> p < length h) ->
  Json.Get (h ++ [Json.mkObject own proto]) (length h) key =
  match own !! key with
  | Some v => Some v
  | None => Json.Get_proto h proto key
  end.
Proof.
  intros Hh Hproto. unfold Json.Get. rewrite length_app, Nat.add_comm.
  cbn [length Nat.add Json.lookup_chain].
  rewrite list_lookup_middle by done. cbn [Json.own Json.prototype].
  destruct (own !! key); [done |]. destruct proto as [p|]; [| done].
  apply lookup_chain_snoc; [done | by apply Hproto].
Qed.

(** X9: a text that parses to [null], a boolean or a number does not make
    [fromJSON] fail: it returns a new object with no own property, so that
    every lookup on it is answered by [proto]. *)
Theorem fromJSON_of_primitive JSON_parse (h : Json.heap) proto json v :
  Json.closed h -> (forall p, proto = Some p -> p < length h) ->
  JSON_parse json = inr v ->
  match v with
  | Json.JNull | Json.JBool _ | Json.JNumber _ => True
  | _ => False
  end ->
  exists o,
    Json.fromJSON JSON_parse proto json h = (h ++ [o], Normal (length h)) /\
    Json.own o = ∅ /\
    forall key,
      Json.Get (h ++ [o]) (length h) key = Json.Get_proto h proto key.
Proof.
  intros Hh Hproto Hv Hprim. eexists.
  split; [by apply fromJSON_returns |].
  split; [by destruct v |].
  intros key. rewrite (Get_new_object h _ proto key Hh Hproto).
  destruct v; try done; cbn [Json.spread]; by rewrite lookup_empty.
Qed.

Lemma fromJSON_of_primitive_witness :
  exists o,
    Json.fromJSON (fun _ => inr (Json.JNumber 10)) (Some 0) "10"
      [Json.Circle_prototype]
    = ([Json.Circle_prototype] ++ [o], Normal 1) /\
    Json.own o = ∅ /\
    forall key,
      Json.Get ([Json.Circle_prototype] ++ [o]) 1 key
      = Json.Get_proto [Json.Circle_prototype] (Some 0) key.
Proof.
  apply (fromJSON_of_primitive (fun _ => inr (Json.JNumber 10))
           [Json.Circle_prototype] (Some 0) "10" (Json.JNumber 10)).
  - intros [|l] o p Hl Hp; simpl in Hl; [| done].
    injection Hl as <-. discriminate Hp.
  - intros p [= <-]. simpl. lia.
  - reflexivity.
  - exact I.
Defined.

Lemma indexed_from_lookup (items : list Json.json) : forall n m,
  (list_to_map (imap (fun i x => (pretty (n + i), Json.Data x)) items)
     : gmap string Json.value) !! pretty m
  = if decide (n <= m) then Json.Data <$> items !! (m - n) else None.
Proof.
  induction items as [|x items IH]; intros n m.
  - simpl. rewrite lookup_empty. by case_decide.
  - rewrite imap_cons, list_to_map_cons, Nat.add_0_r.
    destruct (decide (n = m)) as [-> | Hne].
    + rewrite lookup_insert_eq, Nat.sub_diag.
      by rewrite decide_True by lia.
    + rewrite lookup_insert_ne by (intros ?%(inj pretty); done).
      rewrite (imap_ext _ (fun i x => (pretty (S n + i), Json.Data x)))
        by (intros i y _; simpl; by rewrite Nat.add_succ_r).
      rewrite (IH (S n) m).
      destruct (decide (n <= m)) as [Hle | Hgt].
      * rewrite decide_True by lia.
        replace (m - n) with (S (m - S n)) by lia. done.
      * by rewrite decide_False by lia.
Qed.

(** X10: a text that parses to an array gives an object that owns the
    items under their decimal indices: key [i] holds item [i], and an
    index past the end is looked up on [proto] like any other key. *)
Theorem fromJSON_of_array JSON_parse (h : Json.heap) proto json items :
  Json.closed h -> (forall p, proto = Some p -> p < length h) ->
  JSON_parse json = inr (Json.JArray items) ->
  exists o,
    Json.fromJSON JSON_parse proto json h = (h ++ [o], Normal (length h)) /\
    forall i : nat,
      Json.Get (h ++ [o]) (length h) (pretty i) =
      match items !! i with
      | Some j => Some (Json.Data j)
      | None => Json.Get_proto h proto (pretty i)
      end.
Proof.
  intros Hh Hproto Hv. eexists.
  split; [by apply fromJSON_returns |].
  intros i. rewrite (Get_new_object h _ proto _ Hh Hproto).
  cbn [Json.spread]. unfold Json.indexed.
  pose proof (indexed_from_lookup items 0 i) as Hi. cbn [Nat.add] in Hi.
  rewrite Hi, decide_True, Nat.sub_0_r by lia.
  by destruct (items !! i).
Qed.

Lemma fromJSON_of_array_witness :
  exists o,
    Json.fromJSON
      (fun _ => inr (Json.JArray [Json.JNumber 1; Json.JNumber 2])) None
      "[1,2]" []
    = ([] ++ [o], Normal 0) /\
    forall i : nat,
      Json.Get ([] ++ [o]) 0 (pretty i) =
      match [Json.JNumber 1; Json.JNumber 2] !! i with
      | Some j => Some (Json.Data j)
      | None => Json.Get_proto [] None (pretty i)
      end.
Proof.
  apply (fromJSON_of_array
           (fun _ => inr (Json.JArray [Json.JNumber 1; Json.JNumber 2]))
           [] None "[1,2]").
  - intros l o p Hl. inversion Hl.
  - intros p Hp. discriminate Hp.
  - reflexivity.
Defined.

Lemma ordered_closed (h : Json.heap) : Json.ordered h -> Json.closed h.
Proof.
  intros Hh l o p Hl Hp. pose proof (Hh l o p Hl Hp).
  pose proof (lookup_lt_Some _ _ _ Hl). lia.
Qed.

Lemma lookup_chain_fuel (h : Json.heap) key : forall n m l,
  Json.ordered h -> l < n -> l < m ->
  Json.lookup_chain h n l key = Json.lookup_chain h m l key.
Proof.
  induction n as [|n IH]; intros m l Hh Hn Hm; [lia |].
  destruct m as [|m]; [lia |]. cbn [Json.lookup_chain].
  destruct (h !! l) as [o|] eqn:Ho; [| done].
  destruct (Json.own o !! key); [done |].
  destruct (Json.prototype o) as [p|] eqn:Hp; [| done].
  pose proof (Hh l o p Ho Hp). apply IH; [done | lia | lia].
Qed.

(** X11: in a heap whose prototype links point to earlier objects,
    [fromJSON] with a prototype of the heap keeps the heap so, never
    returns an object that was there, and changes no lookup on any object
    that was there: objects deserialised earlier, and the prototype they
    share, read as before. *)
Theorem fromJSON_leaves_others JSON_parse (h : Json.heap) proto json h' l :
  Json.ordered h -> (forall p, proto = Some p -> p < length h) ->
  Json.fromJSON JSON_parse proto json h = (h', Normal l) ->
  Json.ordered h' /\ h !! l = None /\
  forall l0 key, l0 < length h -> Json.Get h' l0 key = Json.Get h l0 key.
Proof.
  intros Hh Hproto Hf. unfold Json.fromJSON in Hf.
  destruct (JSON_parse json) as [e | v]; [discriminate |].
  rewrite alter_snoc in Hf. injection Hf as <- <-.
  split; [| split].
  - intros l o p Hl Hp. apply lookup_app_Some in Hl as [Hl | [Hlen Hl]].
    + by apply (Hh l o p).
    + apply list_lookup_singleton_Some in Hl as [Hz <-].
      cbn [Json.prototype Json.set_prototype] in Hp.
      specialize (Hproto p Hp). lia.
  - by apply lookup_ge_None.
  - intros l0 key Hl0. unfold Json.Get.
    rewrite lookup_chain_snoc by (by try apply ordered_closed).
    apply lookup_chain_fuel; [done | | done].
    rewrite length_app. simpl. lia.
Qed.

Lemma fromJSON_leaves_others_witness :
  Json.Get
    (Json.fromJSON Json.parse_radius (Some 0)
       ("{" +:+ dquote +:+ "radius" +:+ dquote +:+ ":10}")
       [Json.Circle_prototype]).1 0 "getCircumference"
  = Json.Get [Json.Circle_prototype] 0 "getCircumference".
Proof.
  apply (fromJSON_leaves_others Json.parse_radius [Json.Circle_prototype]
           (Some 0) ("{" +:+ dquote +:+ "radius" +:+ dquote +:+ ":10}") _ 1).
  - intros [|l] o p Hl Hp; simpl in Hl; [| done].
    injection Hl as <-. discriminate Hp.
  - intros p [= <-]. simpl. lia.
  - reflexivity.
  - simpl. lia.
Defined.
